(** * Tarefa.c: the task list and its undo history

    A shallow embedding of [src/Tarefa.c], an interactive task manager
    that keeps a singly linked list of tasks and a stack of recorded
    actions used to undo the last mutation.

    Conventions of the embedding.
    - The linked list [head -> ... -> tail] is the Rocq list of its nodes
      in link order; the [tail] pointer of the C struct always designates
      the last node, so appending through [tail] is appending to the list.
    - A C [int] is a [Z] in the 32-bit signed range.  The three places
      where the program does arithmetic on an [int] ([next_id++],
      [task_id + 1], [next_id - 1]) are written with the two's-complement
      wrap-around spelled out ([Int.wrap]); ISO C leaves the overflowing
      case undefined, and the theorems that depend on the arithmetic
      carry the bound under which no overflow occurs.
    - Every [printf] becomes one [Msg] of the output list a function
      returns; the text is not modelled, its arguments are.
    - [malloc] and [strdup] are assumed to succeed (the program exits
      otherwise).  [strdup(NULL)] has no defined result: the one function
      that can reach it returns [None] there. *)

From Stdlib Require Import ZArith List Ascii String Bool Lia Sorted Permutation.
Import ListNotations.
Local Open Scope string_scope.
Local Open Scope list_scope.
Local Open Scope Z_scope.

(** ** Machine integers *)

Module Int.

Definition INT_MIN : Z := -2147483648.
Definition INT_MAX : Z := 2147483647.

(** The value of a mathematical integer once stored in an [int]. *)
Definition wrap (z : Z) : Z := (z + 2 ^ 31) mod 2 ^ 32 - 2 ^ 31.

Definition add (a b : Z) : Z := wrap (a + b).
Definition sub (a b : Z) : Z := wrap (a - b).

Definition in_range (z : Z) : Prop := INT_MIN <= z <= INT_MAX.

End Int.

(** ** Data model *)

(** [struct Task], without its [next] link. *)
Record Task : Type := mkTask
  { id : Z;
    description : string;
    completed : bool }.

(** [TaskList]: the nodes reachable from [head], and the id counter. *)
Record TaskList : Type := mkTaskList
  { tasks : list Task;
    next_id : Z }.

Inductive ActionType : Type :=
  | ACTION_ADD
  | ACTION_COMPLETE
  | ACTION_REMOVE.

(** [struct Action], without its [next] link.  [task_description] is a
    nullable pointer in the source. *)
Record Action : Type := mkAction
  { type : ActionType;
    task_id : Z;
    task_description : option string;
    was_completed : bool }.

(** [ActionStack]: the actions reachable from [top], most recent first. *)
Definition ActionStack : Type := list Action.

(** What the program prints, one constructor per [printf] of the core. *)
Inductive Msg : Type :=
  | MsgAdded (d : string) (i : Z)
  | MsgNoTasks
  | MsgListHeader
  | MsgTaskLine (i : Z) (done : bool) (d : string)
  | MsgListFooter
  | MsgAlreadyCompleted (i : Z)
  | MsgMarkedCompleted (i : Z)
  | MsgNotFound (i : Z)
  | MsgRemoved (i : Z) (d : string)
  | MsgNothingToUndo
  | MsgUndoing
  | MsgUndoneAdd (i : Z)
  | MsgUndoAddMissing (i : Z)
  | MsgUndoneComplete (i : Z) (restored : bool)
  | MsgUndoCompleteMissing (i : Z)
  | MsgUndoneRemove (d : string) (i : Z).

(** ** The task list *)

Definition initTaskList : TaskList := mkTaskList [] 1.

Definition createTask (i : Z) (d : string) : Task := mkTask i d false.

(** [addTask]: [next_id++] yields the old value and stores the
    incremented one; the node is linked after [tail]. *)
Definition addTask (lst : TaskList) (d : string) : TaskList * list Msg :=
  let newTask := createTask (next_id lst) d in
  (mkTaskList (tasks lst ++ [newTask]) (Int.add (next_id lst) 1),
   [MsgAdded d (id newTask)]).

Definition listTasks (lst : TaskList) : list Msg :=
  match tasks lst with
  | [] => [MsgNoTasks]
  | _ =>
      MsgListHeader
        :: map (fun t => MsgTaskLine (id t) (completed t) (description t))
               (tasks lst)
        ++ [MsgListFooter]
  end.

(** The [while] loop of [completeTask], over the nodes from [current]
    on: the first node carrying the id decides. *)
Fixpoint completeTask_loop (current : list Task) (i : Z)
  : bool * list Task * Msg :=
  match current with
  | [] => (false, [], MsgNotFound i)
  | t :: rest =>
      if id t =? i then
        if completed t then (false, t :: rest, MsgAlreadyCompleted i)
        else (true, mkTask (id t) (description t) true :: rest,
              MsgMarkedCompleted i)
      else
        let '(r, rest', m) := completeTask_loop rest i in
        (r, t :: rest', m)
  end.

Definition completeTask (lst : TaskList) (i : Z)
  : bool * TaskList * list Msg :=
  let '(r, ts, m) := completeTask_loop (tasks lst) i in
  (r, mkTaskList ts (next_id lst), [m]).

(** The search-and-unlink of [removeTask] (repeated verbatim in the
    [ACTION_ADD] case of [undoLastAction]): walk to the first node with
    the id, splice it out, return it with the remaining nodes. *)
Fixpoint unlink (current : list Task) (i : Z) : option (Task * list Task) :=
  match current with
  | [] => None
  | t :: rest =>
      if id t =? i then Some (t, rest)
      else
        match unlink rest i with
        | Some (found, rest') => Some (found, t :: rest')
        | None => None
        end
  end.

Definition removeTask (lst : TaskList) (i : Z)
  : option Task * TaskList * list Msg :=
  match unlink (tasks lst) i with
  | None => (None, lst, [MsgNotFound i])
  | Some (current, ts) =>
      (Some current, mkTaskList ts (next_id lst),
       [MsgRemoved (id current) (description current)])
  end.

(** The search loop [while (p != NULL && p->id != i) p = p->next]. *)
Fixpoint findTask (current : list Task) (i : Z) : option Task :=
  match current with
  | [] => None
  | t :: rest => if id t =? i then Some t else findTask rest i
  end.

(** The same search followed by [current->completed = b]. *)
Fixpoint setCompleted (current : list Task) (i : Z) (b : bool)
  : option (list Task) :=
  match current with
  | [] => None
  | t :: rest =>
      if id t =? i then Some (mkTask (id t) (description t) b :: rest)
      else
        match setCompleted rest i b with
        | Some rest' => Some (t :: rest')
        | None => None
        end
  end.

(** ** The action stack *)

Definition initActionStack : ActionStack := [].

Definition pushAction (stack : ActionStack) (ty : ActionType) (i : Z)
    (d : option string) (was : bool) : ActionStack :=
  mkAction ty i d was :: stack.

Definition popAction (stack : ActionStack) : option Action * ActionStack :=
  match stack with
  | [] => (None, [])
  | action :: below => (Some action, below)
  end.

(** ** Undo *)

Definition undoLastAction (taskList : TaskList) (actionStack : ActionStack)
  : option (TaskList * ActionStack * list Msg) :=
  match popAction actionStack with
  | (None, stack') => Some (taskList, stack', [MsgNothingToUndo])
  | (Some lastAction, stack') =>
      let i := task_id lastAction in
      match type lastAction with
      | ACTION_ADD =>
          match unlink (tasks taskList) i with
          | Some (_, ts) =>
              Some (mkTaskList ts (next_id taskList), stack',
                    [MsgUndoing; MsgUndoneAdd i])
          | None =>
              Some (taskList, stack', [MsgUndoing; MsgUndoAddMissing i])
          end
      | ACTION_COMPLETE =>
          match setCompleted (tasks taskList) i (was_completed lastAction) with
          | Some ts =>
              Some (mkTaskList ts (next_id taskList), stack',
                    [MsgUndoing;
                     MsgUndoneComplete i (was_completed lastAction)])
          | None =>
              Some (taskList, stack',
                    [MsgUndoing; MsgUndoCompleteMissing i])
          end
      | ACTION_REMOVE =>
          match task_description lastAction with
          | None => None
          | Some d =>
              let created := createTask i d in
              let readdedTask :=
                mkTask (id created) (description created)
                       (was_completed lastAction) in
              let ts := tasks taskList ++ [readdedTask] in
              let n :=
                if next_id taskList <=? i then Int.add i 1
                else next_id taskList in
              Some (mkTaskList ts n, stack',
                    [MsgUndoing;
                     MsgUndoneRemove (description readdedTask)
                                     (id readdedTask)])
          end
      end
  end.

(** ** The command loop of [main] *)

Record State : Type := mkState
  { myTasks : TaskList;
    undoStack : ActionStack }.

Definition initState : State := mkState initTaskList initActionStack.

(** A menu choice with its argument already read.  Unreadable input and
    unknown choices change nothing and are left out; choice 0 ends the
    loop. *)
Inductive Command : Type :=
  | CmdAdd (d : string)
  | CmdList
  | CmdComplete (id_to_process : Z)
  | CmdRemove (id_to_process : Z)
  | CmdUndo.

(** One iteration of the [do ... while] loop: the body of the [switch]. *)
Definition step (c : Command) (st : State) : option (State * list Msg) :=
  match c with
  | CmdAdd d =>
      let '(l, out) := addTask (myTasks st) d in
      Some (mkState l
              (pushAction (undoStack st) ACTION_ADD
                 (Int.sub (next_id l) 1) (Some d) false),
            out)
  | CmdList => Some (st, listTasks (myTasks st))
  | CmdComplete i =>
      let was_completed_before :=
        match findTask (tasks (myTasks st)) i with
        | Some taskToComplete => completed taskToComplete
        | None => false
        end in
      let '(r, l, out) := completeTask (myTasks st) i in
      if r then
        Some (mkState l
                (pushAction (undoStack st) ACTION_COMPLETE i None
                   was_completed_before),
              out)
      else Some (mkState l (undoStack st), out)
  | CmdRemove i =>
      match removeTask (myTasks st) i with
      | (Some removed, l, out) =>
          Some (mkState l
                  (pushAction (undoStack st) ACTION_REMOVE (id removed)
                     (Some (description removed)) (completed removed)),
                out)
      | (None, l, out) => Some (mkState l (undoStack st), out)
      end
  | CmdUndo =>
      match undoLastAction (myTasks st) (undoStack st) with
      | Some (l, stack, out) => Some (mkState l stack, out)
      | None => None
      end
  end.

(** Successive iterations; the outputs are concatenated in order. *)
Fixpoint run (cs : list Command) (st : State) : option (State * list Msg) :=
  match cs with
  | [] => Some (st, [])
  | c :: rest =>
      match step c st with
      | Some (st', out) =>
          match run rest st' with
          | Some (st'', out') => Some (st'', out ++ out')
          | None => None
          end
      | None => None
      end
  end.

(** ** Vocabulary of the properties *)

(** No node of [ts] carries the id [i]. *)
Definition absent (i : Z) (ts : list Task) : Prop :=
  Forall (fun u => id u <> i) ts.

(** [t] is the first node of [ts] carrying the id [i]; [pre] are the nodes
    before it and [post] the nodes after it. *)
Definition first_with (i : Z) (pre : list Task) (t : Task)
    (post ts : list Task) : Prop :=
  ts = pre ++ t :: post /\ id t = i /\ absent i pre.

(** Pushing an action value as a whole. *)
Definition record (stack : ActionStack) (a : Action) : ActionStack :=
  pushAction stack (type a) (task_id a) (task_description a)
             (was_completed a).

(** An action whose undo is defined: a [ACTION_REMOVE] entry carries the
    description that [createTask] duplicates. *)
Definition recorded (a : Action) : Prop :=
  type a = ACTION_REMOVE -> task_description a <> None.

(** What reverting an action does, written from the description of the
    three inverses and not from [undoLastAction]: [lst'] and [out] are the
    list and the lines after [a] has been reverted against [lst].
    - An add is reverted by detaching the first node that carries its id.
    - A completion is reverted by giving that node the recorded flag.
    - In both cases, when no node carries the id the list stays as it is
      and the error line for that id is printed.
    - A removal is reverted by linking, after the last node, a node with
      the recorded id, description and flag; the counter is moved to that
      id plus one when it was not above the id. *)
Definition reverts (a : Action) (lst lst' : TaskList) (out : list Msg)
  : Prop :=
  match type a with
  | ACTION_ADD =>
      (exists pre t post,
          first_with (task_id a) pre t post (tasks lst)
          /\ lst' = mkTaskList (pre ++ post) (next_id lst)
          /\ out = [MsgUndoing; MsgUndoneAdd (task_id a)])
      \/ (absent (task_id a) (tasks lst)
          /\ lst' = lst
          /\ out = [MsgUndoing; MsgUndoAddMissing (task_id a)])
  | ACTION_COMPLETE =>
      (exists pre t post,
          first_with (task_id a) pre t post (tasks lst)
          /\ lst'
             = mkTaskList
                 (pre ++ mkTask (id t) (description t) (was_completed a)
                      :: post)
                 (next_id lst)
          /\ out = [MsgUndoing;
                    MsgUndoneComplete (task_id a) (was_completed a)])
      \/ (absent (task_id a) (tasks lst)
          /\ lst' = lst
          /\ out = [MsgUndoing; MsgUndoCompleteMissing (task_id a)])
  | ACTION_REMOVE =>
      exists d,
        task_description a = Some d
        /\ tasks lst'
           = tasks lst ++ [mkTask (task_id a) d (was_completed a)]
        /\ next_id lst'
           = (if next_id lst <=? task_id a then Int.wrap (task_id a + 1)
              else next_id lst)
        /\ out = [MsgUndoing; MsgUndoneRemove d (task_id a)]
  end.

(** The ids handed out by [addTask], as its messages show them. *)
Fixpoint added_ids (out : list Msg) : list Z :=
  match out with
  | [] => []
  | MsgAdded _ i :: rest => i :: added_ids rest
  | _ :: rest => added_ids rest
  end.

(** A sequence of [addTask] calls, one per description. *)
Fixpoint addTasks (lst : TaskList) (ds : list string)
  : TaskList * list Msg :=
  match ds with
  | [] => (lst, [])
  | d :: rest =>
      let '(l1, o1) := addTask lst d in
      let '(l2, o2) := addTasks l1 rest in
      (l2, o1 ++ o2)
  end.

(** The id invariant.  [issued] is the ghost list of every id [addTask]
    has handed out so far.  Nothing relates the ids held by the history
    to [next_id]: the undo of a removal re-establishes the bound by
    itself. *)
Definition Inv (issued : list Z) (st : State) : Prop :=
  Int.in_range (next_id (myTasks st))
  /\ Forall (fun j => j < next_id (myTasks st)) issued
  /\ Forall (fun t => Int.INT_MIN <= id t < next_id (myTasks st))
            (tasks (myTasks st))
  /\ Forall (fun a => Int.INT_MIN <= task_id a < Int.INT_MAX /\ recorded a)
            (undoStack st).

(** The reading of "add then undo" under which [next_id] returns to the
    value it had before the add. *)
Definition add_undo_restores (st : State) (d : string) : Prop :=
  exists st' out,
    run [CmdAdd d; CmdUndo] st = Some (st', out)
    /\ tasks (myTasks st') = tasks (myTasks st)
    /\ next_id (myTasks st') = next_id (myTasks st).

(** ** The rest of [main] *)

(** What [main] prints around the core: the menu block, the prompts, the
    complaints about unusable input, the farewell, and the closing lines
    of the two [destroy] functions.  [OutCore] wraps a line of the core. *)
Inductive Out : Type :=
  | OutMenu
  | OutInvalidNumber
  | OutPromptDescription
  | OutReadError
  | OutPromptComplete
  | OutPromptRemove
  | OutBye
  | OutInvalidOption
  | OutCore (m : Msg)
  | OutListFreed
  | OutStackFreed.

(** [destroyTaskList]: every node is freed, the list is empty again and
    the counter is back to 1. *)
Definition destroyTaskList (lst : TaskList) : TaskList * list Out :=
  (mkTaskList [] 1, [OutListFreed]).

(** [destroyActionStack]: every action is freed, [top] is [NULL]. *)
Definition destroyActionStack (stack : ActionStack)
  : ActionStack * list Out :=
  ([], [OutStackFreed]).

(** [description[strcspn(description, "\n")] = 0]: the buffer is cut at
    its first newline. *)
Fixpoint strip_newline (buffer : string) : string :=
  match buffer with
  | EmptyString => EmptyString
  | String ch rest =>
      if Ascii.eqb ch "010"%char then EmptyString
      else String ch (strip_newline rest)
  end.

(** What the reads of one iteration of the loop return.
    - [read_choice]: the number stored by the [scanf] of the menu choice;
      [None] when that [scanf] does not return 1, end of input included.
    - [choice_flushed]: whether the [while (getchar() != '\n');] that
      follows it meets a newline.  At end of input it never does, and
      the program spins in that loop for ever.
    - [read_line]: the buffer filled by the [fgets] of the description;
      [None] when [fgets] returns [NULL].
    - [read_number]: the number stored by the [scanf] of the id, [None]
      when that [scanf] does not return 1.
    - [number_flushed]: as [choice_flushed], for the loop that follows
      the [scanf] of the id, whether that [scanf] succeeded or not. *)
Record Read : Type := mkRead
  { read_choice : option Z;
    choice_flushed : bool;
    read_line : option string;
    read_number : option Z;
    number_flushed : bool }.

(** How one pass through the [switch] ends: at its [break], with the
    state and the lines printed, or inside a flush loop that never
    ends, with the lines printed before it. *)
Inductive Pass : Type :=
  | Passed (st : State) (out : list Out)
  | Hung (out : list Out).

(** A command of the core run from the [switch], after the lines [pre]
    already printed. *)
Definition core_step (pre : list Out) (c : Command) (st : State)
  : option Pass :=
  match step c st with
  | Some (st', out) => Some (Passed st' (pre ++ map OutCore out))
  | None => None
  end.

(** The [switch (choice)] of the loop body. *)
Definition switch_choice (choice : Z) (r : Read) (st : State)
  : option Pass :=
  match choice with
  | 1 =>
      match read_line r with
      | Some buffer =>
          core_step [OutPromptDescription]
                    (CmdAdd (strip_newline buffer)) st
      | None => Some (Passed st [OutPromptDescription; OutReadError])
      end
  | 2 => core_step [] CmdList st
  | 3 =>
      match read_number r with
      | Some id_to_process =>
          if number_flushed r then
            core_step [OutPromptComplete] (CmdComplete id_to_process) st
          else Some (Hung [OutPromptComplete])
      | None =>
          if number_flushed r then
            Some (Passed st [OutPromptComplete; OutInvalidNumber])
          else Some (Hung [OutPromptComplete; OutInvalidNumber])
      end
  | 4 =>
      match read_number r with
      | Some id_to_process =>
          if number_flushed r then
            core_step [OutPromptRemove] (CmdRemove id_to_process) st
          else Some (Hung [OutPromptRemove])
      | None =>
          if number_flushed r then
            Some (Passed st [OutPromptRemove; OutInvalidNumber])
          else Some (Hung [OutPromptRemove; OutInvalidNumber])
      end
  | 5 => core_step [] CmdUndo st
  | 0 => Some (Passed st [OutBye])
  | _ => Some (Passed st [OutInvalidOption])
  end.

(** Where the loop is once the reads given have been used: left through
    its test, back at the [scanf] of the choice with the menu printed and
    nothing more to read yet, or spinning in a flush loop. *)
Inductive Outcome : Type :=
  | LoopLeft (st : State) (out : list Out)
  | AtPrompt (st : State) (out : list Out)
  | Spinning (st : State) (out : list Out).

(** The lines [pre] printed before an outcome. *)
Definition after (pre : list Out) (o : option Outcome) : option Outcome :=
  match o with
  | Some (LoopLeft st out) => Some (LoopLeft st (pre ++ out))
  | Some (AtPrompt st out) => Some (AtPrompt st (pre ++ out))
  | Some (Spinning st out) => Some (Spinning st (pre ++ out))
  | None => None
  end.

(** The [do ... while (choice != 0)] loop over the reads still to come.
    [choice] is the variable of [main]: [None] while nothing has been
    stored in it.  A failed read of the choice leaves the variable as it
    is and, once the line is flushed, [continue]s to the loop test, which
    reads it; on the first iteration that is a read of an uninitialised
    variable, for which the loop has no defined result. *)
Fixpoint main_loop (reads : list Read) (choice : option Z) (st : State)
  : option Outcome :=
  match reads with
  | [] => Some (AtPrompt st [OutMenu])
  | r :: rest =>
      match read_choice r with
      | None =>
          if choice_flushed r then
            match choice with
            | None => None
            | Some c =>
                if c =? 0 then
                  Some (LoopLeft st [OutMenu; OutInvalidNumber])
                else
                  after [OutMenu; OutInvalidNumber]
                        (main_loop rest (Some c) st)
            end
          else Some (Spinning st [OutMenu; OutInvalidNumber])
      | Some c =>
          if choice_flushed r then
            match switch_choice c r st with
            | None => None
            | Some (Hung out) => Some (Spinning st (OutMenu :: out))
            | Some (Passed st' out) =>
                if c =? 0 then Some (LoopLeft st' (OutMenu :: out))
                else after (OutMenu :: out) (main_loop rest (Some c) st')
            end
          else Some (Spinning st [OutMenu])
      end
  end.

(** How a run of [main] stands once the reads given have been used:
    returned with a status, waiting at the prompt, or spinning. *)
Inductive Ending : Type :=
  | Returned (status : Z) (st : State) (out : list Out)
  | Waiting (st : State) (out : list Out)
  | Forever (st : State) (out : list Out).

(** [main]: the loop from the initial state, then the two [destroy]
    calls and [return 0]. *)
Definition main (reads : list Read) : option Ending :=
  match main_loop reads None initState with
  | Some (LoopLeft st out) =>
      let '(lst, o1) := destroyTaskList (myTasks st) in
      let '(stack, o2) := destroyActionStack (undoStack st) in
      Some (Returned 0 (mkState lst stack) (out ++ o1 ++ o2))
  | Some (AtPrompt st out) => Some (Waiting st out)
  | Some (Spinning st out) => Some (Forever st out)
  | None => None
  end.

(** ** Vocabulary of the further properties *)

(** The tasks a listing shows, read back from its lines. *)
Fixpoint listed (out : list Msg) : list Task :=
  match out with
  | [] => []
  | MsgTaskLine i done d :: rest => mkTask i d done :: listed rest
  | _ :: rest => listed rest
  end.

(** The lines of the core among what [main] printed. *)
Fixpoint core (out : list Out) : list Msg :=
  match out with
  | [] => []
  | OutCore m :: rest => m :: core rest
  | _ :: rest => core rest
  end.

(** The command an iteration amounts to, if its reads are usable and its
    choice is one of the five that reach the core. *)
Definition command_of (r : Read) : option Command :=
  match read_choice r with
  | Some 1 => option_map (fun b => CmdAdd (strip_newline b)) (read_line r)
  | Some 2 => Some CmdList
  | Some 3 => option_map CmdComplete (read_number r)
  | Some 4 => option_map CmdRemove (read_number r)
  | Some 5 => Some CmdUndo
  | _ => None
  end.

Fixpoint commands_of (reads : list Read) : list Command :=
  match reads with
  | [] => []
  | r :: rest =>
      match command_of r with
      | Some c => c :: commands_of rest
      | None => commands_of rest
      end
  end.

(** Every flush loop of the iteration meets its newline. *)
Definition flushed (r : Read) : Prop :=
  choice_flushed r = true /\ number_flushed r = true.

Definition is_add (c : Command) : bool :=
  match c with CmdAdd _ => true | _ => false end.

Definition is_undo (c : Command) : bool :=
  match c with CmdUndo => true | _ => false end.

(** The two lines by which an undo reports that its target is gone. *)
Definition inconsistency (m : Msg) : Prop :=
  match m with
  | MsgUndoAddMissing _ | MsgUndoCompleteMissing _ => True
  | _ => False
  end.

(** The history can be undone from top to bottom against a list whose
    nodes carry the ids [ids], with the counter at [n]: each added or
    completed task is there when its action comes up, each removed task
    comes with its description, is not there, and has an id from 1 to
    below [n]. *)
Fixpoint replay (n : Z) (ids : list Z) (h : ActionStack) : Prop :=
  match h with
  | [] => True
  | a :: below =>
      match type a with
      | ACTION_ADD =>
          In (task_id a) ids
          /\ replay n (List.remove Z.eq_dec (task_id a) ids) below
      | ACTION_COMPLETE => In (task_id a) ids /\ replay n ids below
      | ACTION_REMOVE =>
          task_description a <> None
          /\ 1 <= task_id a < n
          /\ ~ In (task_id a) ids
          /\ replay n (ids ++ [task_id a]) below
      end
  end.

(** The states the program moves through. *)
Definition Reach (st : State) : Prop :=
  1 <= next_id (myTasks st) <= Int.INT_MAX
  /\ NoDup (map id (tasks (myTasks st)))
  /\ Forall (fun t => 1 <= id t < next_id (myTasks st)) (tasks (myTasks st))
  /\ replay (next_id (myTasks st)) (map id (tasks (myTasks st)))
            (undoStack st).

(** * Properties *)


(** ** Arithmetic on [int] *)

Module IntFacts.
Import Int.

Lemma wrap_in_range (z : Z) : in_range z -> wrap z = z.
Proof.
  unfold in_range, wrap, INT_MIN, INT_MAX. intros Hz.
  rewrite Z.mod_small; lia.
Qed.

Lemma add_1_no_overflow (n : Z) :
  INT_MIN <= n -> n < INT_MAX -> add n 1 = n + 1.
Proof.
  intros Hlo Hhi. unfold add. apply wrap_in_range.
  unfold in_range, INT_MIN, INT_MAX in *. lia.
Qed.

(** [next_id - 1] read back right after [next_id++] is the id just
    handed out, on the whole [int] range. *)
Lemma sub_1_add_1 (n : Z) : in_range n -> sub (add n 1) 1 = n.
Proof.
  unfold in_range, sub, add, wrap, INT_MIN, INT_MAX. intros Hn.
  replace ((n + 1 + 2 ^ 31) mod 2 ^ 32 - 2 ^ 31 - 1 + 2 ^ 31)
    with ((n + 1 + 2 ^ 31) mod 2 ^ 32 - 1) by lia.
  rewrite Zminus_mod_idemp_l.
  replace (n + 1 + 2 ^ 31 - 1) with (n + 2 ^ 31) by lia.
  rewrite Z.mod_small; lia.
Qed.

Lemma sub_1_succ (n : Z) : in_range n -> sub (n + 1) 1 = n.
Proof.
  intros Hn. unfold sub. replace (n + 1 - 1) with n by lia.
  apply wrap_in_range; assumption.
Qed.

End IntFacts.

(** ** Searching the list by id *)

Lemma absent_or_first (i : Z) (ts : list Task) :
  absent i ts \/ exists pre t post, first_with i pre t post ts.
Proof.
  induction ts as [|u ts IH].
  - left. constructor.
  - destruct (Z.eq_dec (id u) i) as [E|N].
    + right. exists [], u, ts. repeat split; auto. constructor.
    + destruct IH as [A|(pre & t & post & -> & E & A)].
      * left. constructor; assumption.
      * right. exists (u :: pre), t, post. repeat split; auto.
        constructor; assumption.
Qed.

Lemma absent_not_first (i : Z) (pre : list Task) (t : Task)
    (post ts : list Task) :
  first_with i pre t post ts -> absent i ts -> False.
Proof.
  intros (-> & E & _) A. unfold absent in A.
  rewrite Forall_app in A. destruct A as [_ A]. inversion A; subst; auto.
Qed.

Lemma absent_In (i : Z) (ts : list Task) :
  absent i ts <-> (forall t, In t ts -> id t <> i).
Proof. apply Forall_forall. Qed.

Section Search.

Variable i : Z.

Lemma unlink_absent (ts : list Task) :
  absent i ts -> unlink ts i = None.
Proof.
  induction 1 as [|u ts N _ IH]; simpl; [reflexivity|].
  apply Z.eqb_neq in N. rewrite N, IH. reflexivity.
Qed.

Lemma unlink_first (pre : list Task) (t : Task) (post ts : list Task) :
  first_with i pre t post ts -> unlink ts i = Some (t, pre ++ post).
Proof.
  intros (-> & E & A). induction A as [|u pre N _ IH]; simpl.
  - apply Z.eqb_eq in E. rewrite E. reflexivity.
  - apply Z.eqb_neq in N. rewrite N, IH. reflexivity.
Qed.

Lemma findTask_absent (ts : list Task) :
  absent i ts -> findTask ts i = None.
Proof.
  induction 1 as [|u ts N _ IH]; simpl; [reflexivity|].
  apply Z.eqb_neq in N. rewrite N. exact IH.
Qed.

Lemma findTask_first (pre : list Task) (t : Task) (post ts : list Task) :
  first_with i pre t post ts -> findTask ts i = Some t.
Proof.
  intros (-> & E & A). induction A as [|u pre N _ IH]; simpl.
  - apply Z.eqb_eq in E. rewrite E. reflexivity.
  - apply Z.eqb_neq in N. rewrite N. exact IH.
Qed.

Lemma setCompleted_absent (ts : list Task) (b : bool) :
  absent i ts -> setCompleted ts i b = None.
Proof.
  induction 1 as [|u ts N _ IH]; simpl; [reflexivity|].
  apply Z.eqb_neq in N. rewrite N, IH. reflexivity.
Qed.

Lemma setCompleted_first (pre : list Task) (t : Task) (post ts : list Task)
    (b : bool) :
  first_with i pre t post ts ->
  setCompleted ts i b
  = Some (pre ++ mkTask (id t) (description t) b :: post).
Proof.
  intros (-> & E & A). induction A as [|u pre N _ IH]; simpl.
  - apply Z.eqb_eq in E. rewrite E. reflexivity.
  - apply Z.eqb_neq in N. rewrite N, IH. reflexivity.
Qed.

Lemma completeTask_loop_absent (ts : list Task) :
  absent i ts -> completeTask_loop ts i = (false, ts, MsgNotFound i).
Proof.
  induction 1 as [|u ts N _ IH]; simpl; [reflexivity|].
  apply Z.eqb_neq in N. rewrite N, IH. reflexivity.
Qed.

Lemma completeTask_loop_done (pre : list Task) (t : Task)
    (post ts : list Task) :
  first_with i pre t post ts -> completed t = true ->
  completeTask_loop ts i = (false, ts, MsgAlreadyCompleted i).
Proof.
  intros (-> & E & A) C. induction A as [|u pre N _ IH]; simpl.
  - apply Z.eqb_eq in E. rewrite E, C. reflexivity.
  - apply Z.eqb_neq in N. rewrite N, IH. reflexivity.
Qed.

Lemma completeTask_loop_pending (pre : list Task) (t : Task)
    (post ts : list Task) :
  first_with i pre t post ts -> completed t = false ->
  completeTask_loop ts i
  = (true, pre ++ mkTask (id t) (description t) true :: post,
     MsgMarkedCompleted i).
Proof.
  intros (-> & E & A) C. induction A as [|u pre N _ IH]; simpl.
  - apply Z.eqb_eq in E. rewrite E, C. reflexivity.
  - apply Z.eqb_neq in N. rewrite N, IH. reflexivity.
Qed.

End Search.

Lemma task_eta (t : Task) : mkTask (id t) (description t) (completed t) = t.
Proof. destruct t; reflexivity. Qed.

Lemma taskList_eta (l : TaskList) : mkTaskList (tasks l) (next_id l) = l.
Proof. destruct l; reflexivity. Qed.

Lemma state_eta (st : State) : mkState (myTasks st) (undoStack st) = st.
Proof. destruct st; reflexivity. Qed.

(** ** Adding *)

Lemma added_ids_app (o1 o2 : list Msg) :
  added_ids (o1 ++ o2) = added_ids o1 ++ added_ids o2.
Proof.
  induction o1 as [|m o1 IH]; simpl; [reflexivity|].
  destruct m; simpl; rewrite ?IH; reflexivity.
Qed.

Lemma addTask_no_overflow (lst : TaskList) (d : string) :
  Int.INT_MIN <= next_id lst -> next_id lst < Int.INT_MAX ->
  addTask lst d
  = (mkTaskList (tasks lst ++ [mkTask (next_id lst) d false])
                (next_id lst + 1),
     [MsgAdded d (next_id lst)]).
Proof.
  intros Hlo Hhi. unfold addTask, createTask. simpl.
  rewrite IntFacts.add_1_no_overflow by assumption. reflexivity.
Qed.

Lemma StronglySorted_lt_NoDup (l : list Z) :
  StronglySorted Z.lt l -> NoDup l.
Proof.
  induction 1 as [|a l _ IH Hall]; constructor; auto.
  intros Hin. rewrite Forall_forall in Hall.
  specialize (Hall _ Hin). lia.
Qed.

(** The ids of a run of adds: one per call, none below the counter the
    run started from, each above the ones before it. *)
Lemma addTasks_ids (ds : list string) :
  forall lst : TaskList,
    Int.INT_MIN <= next_id lst ->
    next_id lst + Z.of_nat (List.length ds) <= Int.INT_MAX ->
    let ids := added_ids (snd (addTasks lst ds)) in
    List.length ids = List.length ds
    /\ Forall (fun j => next_id lst <= j) ids
    /\ StronglySorted Z.lt ids.
Proof.
  induction ds as [|d ds IH]; intros lst Hlo Hhi; cbv zeta.
  - simpl. repeat split; constructor.
  - simpl List.length in Hhi. rewrite Nat2Z.inj_succ in Hhi.
    cbn [addTasks]. rewrite addTask_no_overflow by lia.
    set (l1 := mkTaskList _ _).
    destruct (IH l1) as (Hlen & Hge & Hsorted); [simpl; lia..|].
    destruct (addTasks l1 ds) as [l2 o2]. simpl in *.
    repeat split.
    + now rewrite Hlen.
    + constructor; [lia|].
      eapply Forall_impl; [|exact Hge]. simpl. intros; lia.
    + constructor; [assumption|].
      eapply Forall_impl; [|exact Hge]. simpl. intros; lia.
Qed.

(** C7. [addTask] has no failure outcome: it gives the new task the id
    found in [next_id], stores the incremented counter, and links the
    task, not completed, after the last node.  Hence the ids handed out
    by any sequence of [addTask] calls that stays within [int] are
    strictly increasing and pairwise distinct. *)
Theorem addTask_assigns_fresh_increasing_ids
    (lst : TaskList) (d : string) (ds : list string)
    (Hlo : Int.INT_MIN <= next_id lst)
    (Hhi : next_id lst + Z.of_nat (List.length (d :: ds)) <= Int.INT_MAX) :
  addTask lst d
  = (mkTaskList (tasks lst ++ [mkTask (next_id lst) d false])
                (next_id lst + 1),
     [MsgAdded d (next_id lst)])
  /\ let ids := added_ids (snd (addTasks lst (d :: ds))) in
     List.length ids = List.length (d :: ds)
     /\ hd_error ids = Some (next_id lst)
     /\ StronglySorted Z.lt ids
     /\ NoDup ids.
Proof.
  assert (Hone : next_id lst < Int.INT_MAX).
  { simpl List.length in Hhi. lia. }
  split; [apply addTask_no_overflow; assumption|].
  destruct (addTasks_ids (d :: ds) lst Hlo Hhi) as (Hlen & _ & Hsorted).
  cbv zeta. repeat split; try assumption.
  - cbn [addTasks]. rewrite addTask_no_overflow by assumption.
    destruct (addTasks _ ds). reflexivity.
  - apply StronglySorted_lt_NoDup; assumption.
Qed.

Lemma addTask_assigns_fresh_increasing_ids_witness :
  added_ids (snd (addTasks initTaskList ["a"; "b"; "c"])) = [1; 2; 3]
  /\ StronglySorted Z.lt
       (added_ids (snd (addTasks initTaskList ["a"; "b"; "c"]))).
Proof.
  split; [reflexivity|].
  apply (addTask_assigns_fresh_increasing_ids
           initTaskList "a" ["b"; "c"]).
  - vm_compute. discriminate.
  - vm_compute. discriminate.
Defined.

(** ** Removing *)

(** C8. [removeTask] on an id carried by some node detaches the first
    such node, keeps the other nodes in their order, and returns the
    detached node with its id, description and flag; on an id no node
    carries it reports not-found and returns the list as it was. *)
Theorem removeTask_detaches_or_reports (lst : TaskList) (i : Z) :
  (forall pre t post,
      first_with i pre t post (tasks lst) ->
      removeTask lst i
      = (Some t, mkTaskList (pre ++ post) (next_id lst),
         [MsgRemoved i (description t)]))
  /\ (absent i (tasks lst) ->
      removeTask lst i = (None, lst, [MsgNotFound i])).
Proof.
  split.
  - intros pre t post H. unfold removeTask.
    rewrite (unlink_first i pre t post _ H).
    destruct H as (_ & <- & _). reflexivity.
  - intros H. unfold removeTask. rewrite unlink_absent by assumption.
    reflexivity.
Qed.

Lemma removeTask_detaches_or_reports_witness :
  removeTask
    (mkTaskList [mkTask 1 "a" false; mkTask 2 "b" true; mkTask 3 "c" false] 4)
    2
  = (Some (mkTask 2 "b" true),
     mkTaskList [mkTask 1 "a" false; mkTask 3 "c" false] 4,
     [MsgRemoved 2 "b"])
  /\ removeTask (mkTaskList [mkTask 1 "a" false] 2) 7
     = (None, mkTaskList [mkTask 1 "a" false] 2, [MsgNotFound 7]).
Proof.
  split.
  - apply (proj1 (removeTask_detaches_or_reports
                    (mkTaskList [mkTask 1 "a" false; mkTask 2 "b" true;
                                 mkTask 3 "c" false] 4) 2)
                 [mkTask 1 "a" false] (mkTask 2 "b" true)
                 [mkTask 3 "c" false]).
    repeat split. constructor; [vm_compute; discriminate|constructor].
  - apply (proj2 (removeTask_detaches_or_reports
                    (mkTaskList [mkTask 1 "a" false] 2) 7)).
    constructor; [vm_compute; discriminate|constructor].
Defined.

(** ** Completing *)

Lemma completeTask_absent (lst : TaskList) (i : Z) :
  absent i (tasks lst) ->
  completeTask lst i = (false, lst, [MsgNotFound i]).
Proof.
  intros H. unfold completeTask.
  rewrite completeTask_loop_absent by assumption.
  rewrite taskList_eta. reflexivity.
Qed.

Lemma completeTask_done (lst : TaskList) (i : Z) pre t post :
  first_with i pre t post (tasks lst) -> completed t = true ->
  completeTask lst i = (false, lst, [MsgAlreadyCompleted i]).
Proof.
  intros H C. unfold completeTask.
  rewrite (completeTask_loop_done i pre t post _ H C).
  rewrite taskList_eta. reflexivity.
Qed.

Lemma completeTask_pending (lst : TaskList) (i : Z) pre t post :
  first_with i pre t post (tasks lst) -> completed t = false ->
  completeTask lst i
  = (true,
     mkTaskList (pre ++ mkTask (id t) (description t) true :: post)
                (next_id lst),
     [MsgMarkedCompleted i]).
Proof.
  intros H C. unfold completeTask.
  rewrite (completeTask_loop_pending i pre t post _ H C). reflexivity.
Qed.

Lemma first_with_set (i : Z) pre t post ts (b : bool) :
  first_with i pre t post ts ->
  first_with i pre (mkTask (id t) (description t) b) post
             (pre ++ mkTask (id t) (description t) b :: post).
Proof. intros (_ & E & A). repeat split; assumption. Qed.

(** C5. [completeTask] has three outcomes.  No node carries the id: it
    reports not-found and the list is as before.  The node found is
    already completed: it reports so and the list is as before.  The
    node found is pending: its flag becomes true, nothing else changes.
    A second call on the id of a pending task therefore reports
    already-completed, changes nothing, and the flag is true after both
    calls. *)
Theorem completeTask_three_outcomes (lst : TaskList) (i : Z) :
  (absent i (tasks lst) ->
   completeTask lst i = (false, lst, [MsgNotFound i]))
  /\ (forall pre t post,
        first_with i pre t post (tasks lst) -> completed t = true ->
        completeTask lst i = (false, lst, [MsgAlreadyCompleted i]))
  /\ (forall pre t post,
        first_with i pre t post (tasks lst) -> completed t = false ->
        let lst' :=
          mkTaskList (pre ++ mkTask (id t) (description t) true :: post)
                     (next_id lst) in
        completeTask lst i = (true, lst', [MsgMarkedCompleted i])
        /\ completeTask lst' i = (false, lst', [MsgAlreadyCompleted i])
        /\ option_map completed (findTask (tasks lst') i) = Some true).
Proof.
  split; [apply completeTask_absent|].
  split; [apply completeTask_done|].
  intros pre t post H C lst'.
  pose proof (first_with_set i pre t post _ true H) as H'.
  split; [apply completeTask_pending; assumption|].
  split.
  - apply (completeTask_done lst' i pre _ post H'). reflexivity.
  - unfold lst'. cbn [tasks].
    rewrite (findTask_first i pre _ post _ H'). reflexivity.
Qed.

Lemma completeTask_three_outcomes_witness :
  completeTask (mkTaskList [mkTask 1 "a" false; mkTask 2 "b" true] 3) 5
  = (false, mkTaskList [mkTask 1 "a" false; mkTask 2 "b" true] 3,
     [MsgNotFound 5])
  /\ completeTask (mkTaskList [mkTask 1 "a" false; mkTask 2 "b" true] 3) 2
     = (false, mkTaskList [mkTask 1 "a" false; mkTask 2 "b" true] 3,
        [MsgAlreadyCompleted 2])
  /\ completeTask (mkTaskList [mkTask 1 "a" false; mkTask 2 "b" true] 3) 1
     = (true, mkTaskList [mkTask 1 "a" true; mkTask 2 "b" true] 3,
        [MsgMarkedCompleted 1])
  /\ completeTask (mkTaskList [mkTask 1 "a" true; mkTask 2 "b" true] 3) 1
     = (false, mkTaskList [mkTask 1 "a" true; mkTask 2 "b" true] 3,
        [MsgAlreadyCompleted 1]).
Proof.
  destruct (completeTask_three_outcomes
              (mkTaskList [mkTask 1 "a" false; mkTask 2 "b" true] 3) 5)
    as (Hnone & _ & _).
  destruct (completeTask_three_outcomes
              (mkTaskList [mkTask 1 "a" false; mkTask 2 "b" true] 3) 2)
    as (_ & Hdone & _).
  destruct (completeTask_three_outcomes
              (mkTaskList [mkTask 1 "a" false; mkTask 2 "b" true] 3) 1)
    as (_ & _ & Hpend).
  split.
  { apply Hnone. repeat (constructor; [vm_compute; discriminate|]).
    constructor. }
  split.
  { apply (Hdone [mkTask 1 "a" false] (mkTask 2 "b" true) []);
      [|reflexivity].
    repeat split. constructor; [vm_compute; discriminate|constructor]. }
  destruct (Hpend [] (mkTask 1 "a" false) [mkTask 2 "b" true])
    as (H1 & H2 & _); [|reflexivity|].
  { repeat split. constructor. }
  split; [exact H1|exact H2].
Defined.

(** C10. The boolean [completeTask] returns is [true] exactly when the
    first node carrying the id was pending, and then that node, and no
    other, has been given the flag [true] in the list returned; it is
    [false], with the list untouched, both when no node carries the id
    and when the node found was already completed.  In either of these
    two cases the command loop leaves the history as it was; in the
    first it records the completion. *)
Theorem completeTask_result_conflates_failures (st : State) (i : Z) :
  let '(r, l, out) := completeTask (myTasks st) i in
  (r = true <->
   exists pre t post,
     first_with i pre t post (tasks (myTasks st)) /\ completed t = false)
  /\ (forall pre t post,
        first_with i pre t post (tasks (myTasks st)) ->
        completed t = false ->
        r = true
        /\ l = mkTaskList
                 (pre ++ mkTask (id t) (description t) true :: post)
                 (next_id (myTasks st))
        /\ out = [MsgMarkedCompleted i]
        /\ step (CmdComplete i) st
           = Some (mkState l (pushAction (undoStack st) ACTION_COMPLETE i
                                         None false),
                   out))
  /\ (absent i (tasks (myTasks st)) ->
      r = false /\ out = [MsgNotFound i])
  /\ (forall pre t post,
        first_with i pre t post (tasks (myTasks st)) ->
        completed t = true ->
        r = false /\ out = [MsgAlreadyCompleted i])
  /\ (r = false ->
      l = myTasks st /\ step (CmdComplete i) st = Some (st, out)).
Proof.
  unfold step.
  destruct (absent_or_first i (tasks (myTasks st)))
    as [A|(pre & t & post & H)].
  - rewrite (completeTask_absent _ _ A).
    split; [split; [discriminate|]|].
    { intros (pre & t & post & H & _).
      exfalso; eapply absent_not_first; eassumption. }
    split.
    { intros pre t post H. exfalso; eapply absent_not_first; eassumption. }
    split; [auto|]. split.
    { intros pre t post H. exfalso; eapply absent_not_first; eassumption. }
    intros _. rewrite state_eta. auto.
  - pose proof (findTask_first i _ _ _ _ H) as F.
    destruct (completed t) eqn:C.
    + rewrite (completeTask_done _ _ pre t post H C).
      split; [split; [discriminate|]|].
      { intros (pre' & t' & post' & H' & C').
        rewrite (findTask_first i _ _ _ _ H') in F. congruence. }
      split.
      { intros pre' t' post' H' C'.
        rewrite (findTask_first i _ _ _ _ H') in F. congruence. }
      split.
      { intros A. exfalso; eapply absent_not_first; eassumption. }
      split; [auto|]. intros _. rewrite state_eta. auto.
    + rewrite (completeTask_pending _ _ pre t post H C).
      split; [split; [eauto 6|reflexivity]|].
      split.
      { intros pre' t' post' H' C'.
        assert (Et : t' = t).
        { rewrite (findTask_first i _ _ _ _ H') in F. congruence. }
        subst t'.
        assert (Epre : pre' = pre /\ post' = post).
        { destruct H as (Ets & _ & Apre), H' as (Ets' & Eid' & Apre').
          rewrite Ets in Ets'. clear - Ets' Eid' Apre Apre'.
          revert pre' Ets' Apre'.
          induction pre as [|u pre IH]; intros [|u' pre'] Ets' Apre';
            cbn [app] in Ets'.
          - injection Ets' as ->. auto.
          - injection Ets' as <- _. inversion Apre'; subst. contradiction.
          - injection Ets' as -> _. inversion Apre; subst. contradiction.
          - injection Ets' as <- Ets'. inversion Apre; inversion Apre';
              subst.
            destruct (IH ltac:(assumption) pre' Ets' ltac:(assumption))
              as [-> ->].
            auto. }
        destruct Epre as [-> ->].
        rewrite F, C. auto. }
      split.
      { intros A. exfalso; eapply absent_not_first; eassumption. }
      split; [|discriminate].
      intros pre' t' post' H' C'.
      rewrite (findTask_first i _ _ _ _ H') in F. congruence.
Qed.

Lemma completeTask_result_conflates_failures_witness :
  (fst (fst (completeTask (mkTaskList [mkTask 1 "a" true] 2) 1)) = false
   /\ step (CmdComplete 1) (mkState (mkTaskList [mkTask 1 "a" true] 2) [])
      = Some (mkState (mkTaskList [mkTask 1 "a" true] 2) [],
              [MsgAlreadyCompleted 1]))
  /\ (fst (fst (completeTask (mkTaskList [mkTask 1 "a" true] 2) 9)) = false
      /\ step (CmdComplete 9) (mkState (mkTaskList [mkTask 1 "a" true] 2) [])
         = Some (mkState (mkTaskList [mkTask 1 "a" true] 2) [],
                 [MsgNotFound 9]))
  /\ completeTask (mkTaskList [mkTask 1 "a" false] 2) 1
     = (true, mkTaskList [mkTask 1 "a" true] 2, [MsgMarkedCompleted 1]).
Proof.
  pose proof (completeTask_result_conflates_failures
                (mkState (mkTaskList [mkTask 1 "a" true] 2) []) 1) as H1.
  pose proof (completeTask_result_conflates_failures
                (mkState (mkTaskList [mkTask 1 "a" true] 2) []) 9) as H9.
  pose proof (completeTask_result_conflates_failures
                (mkState (mkTaskList [mkTask 1 "a" false] 2) []) 1) as Hp.
  cbn [myTasks] in H1, H9, Hp.
  destruct (completeTask (mkTaskList [mkTask 1 "a" true] 2) 1)
    as [[r1 l1] o1].
  destruct (completeTask (mkTaskList [mkTask 1 "a" true] 2) 9)
    as [[r9 l9] o9].
  destruct (completeTask (mkTaskList [mkTask 1 "a" false] 2) 1)
    as [[rp lp] op].
  destruct H1 as (_ & _ & _ & Hdone & Hkeep1).
  destruct H9 as (_ & _ & Hnone & _ & Hkeep9).
  destruct Hp as (_ & Hpend & _).
  destruct (Hdone [] (mkTask 1 "a" true) []) as [R1 O1];
    [repeat split; constructor|reflexivity|].
  destruct Hnone as [R9 O9].
  { constructor; [vm_compute; discriminate|constructor]. }
  destruct (Hpend [] (mkTask 1 "a" false) []) as (Rp & Lp & Op & _);
    [repeat split; constructor|reflexivity|].
  subst. cbn [fst]. split; [|split].
  - split; [reflexivity|]. apply Hkeep1; reflexivity.
  - split; [reflexivity|]. apply Hkeep9; reflexivity.
  - reflexivity.
Defined.

(** ** Undoing *)

Lemma record_cons (h : ActionStack) (a : Action) : record h a = a :: h.
Proof. destruct a; reflexivity. Qed.

(** An undo is decided by the top action alone, reverts it, and hands
    back the rest of the stack untouched. *)
Lemma undoLastAction_top (lst : TaskList) (a : Action) (h : ActionStack) :
  recorded a ->
  exists lst' out,
    undoLastAction lst (a :: h) = Some (lst', h, out)
    /\ reverts a lst lst' out.
Proof.
  intros R. unfold undoLastAction, reverts. cbn [popAction].
  destruct a as [ty i d w]. unfold recorded in R. cbn in *.
  destruct ty.
  - destruct (absent_or_first i (tasks lst)) as [A|(pre & t & post & H)].
    + rewrite (unlink_absent _ _ A). eexists _, _.
      split; [reflexivity|]. right. auto.
    + rewrite (unlink_first _ _ _ _ _ H). eexists _, _.
      split; [reflexivity|]. left. exists pre, t, post. auto.
  - destruct (absent_or_first i (tasks lst)) as [A|(pre & t & post & H)].
    + rewrite (setCompleted_absent _ _ _ A). eexists _, _.
      split; [reflexivity|]. right. auto.
    + rewrite (setCompleted_first _ _ _ _ _ _ H). eexists _, _.
      split; [reflexivity|]. left. exists pre, t, post. auto.
  - destruct d as [d|]; [|exfalso; now apply R].
    eexists _, _. split; [reflexivity|]. exists d.
    cbn [tasks next_id]. auto.
Qed.

(** C1. Undo is last-in first-out.  With A1, A2, A3 recorded in that
    order on top of any history, the first undo reverts A3, the second
    A2, the third A1: each gives the list that reverting that action
    gives from the list the undo found, and each takes exactly that
    action off the history, whose entries underneath stay as they were.
    An undo on an empty history reports nothing-to-undo and changes
    neither the list nor the history.  From the initial state, after add
    x, remove x, add y, the first undo takes y away, the second puts x
    back under id 1, the third takes x away, and the fourth finds nothing
    to undo. *)
Theorem undo_is_lifo (lst : TaskList) (h : ActionStack) (a1 a2 a3 : Action)
    (R1 : recorded a1) (R2 : recorded a2) (R3 : recorded a3) :
  (exists l3 o3 l2 o2 l1 o1,
      undoLastAction lst (record (record (record h a1) a2) a3)
      = Some (l3, record (record h a1) a2, o3)
      /\ reverts a3 lst l3 o3
      /\ undoLastAction l3 (record (record h a1) a2)
         = Some (l2, record h a1, o2)
      /\ reverts a2 l3 l2 o2
      /\ undoLastAction l2 (record h a1) = Some (l1, h, o1)
      /\ reverts a1 l2 l1 o1)
  /\ undoLastAction lst [] = Some (lst, [], [MsgNothingToUndo])
  /\ run [CmdAdd "x"; CmdRemove 1; CmdAdd "y"] initState
     = Some (mkState (mkTaskList [mkTask 2 "y" false] 3)
                     [mkAction ACTION_ADD 2 (Some "y") false;
                      mkAction ACTION_REMOVE 1 (Some "x") false;
                      mkAction ACTION_ADD 1 (Some "x") false],
             [MsgAdded "x" 1; MsgRemoved 1 "x"; MsgAdded "y" 2])
  /\ step CmdUndo
          (mkState (mkTaskList [mkTask 2 "y" false] 3)
                   [mkAction ACTION_ADD 2 (Some "y") false;
                    mkAction ACTION_REMOVE 1 (Some "x") false;
                    mkAction ACTION_ADD 1 (Some "x") false])
     = Some (mkState (mkTaskList [] 3)
                     [mkAction ACTION_REMOVE 1 (Some "x") false;
                      mkAction ACTION_ADD 1 (Some "x") false],
             [MsgUndoing; MsgUndoneAdd 2])
  /\ step CmdUndo
          (mkState (mkTaskList [] 3)
                   [mkAction ACTION_REMOVE 1 (Some "x") false;
                    mkAction ACTION_ADD 1 (Some "x") false])
     = Some (mkState (mkTaskList [mkTask 1 "x" false] 3)
                     [mkAction ACTION_ADD 1 (Some "x") false],
             [MsgUndoing; MsgUndoneRemove "x" 1])
  /\ step CmdUndo
          (mkState (mkTaskList [mkTask 1 "x" false] 3)
                   [mkAction ACTION_ADD 1 (Some "x") false])
     = Some (mkState (mkTaskList [] 3) [], [MsgUndoing; MsgUndoneAdd 1])
  /\ step CmdUndo (mkState (mkTaskList [] 3) [])
     = Some (mkState (mkTaskList [] 3) [], [MsgNothingToUndo]).
Proof.
  split; [|repeat split; reflexivity].
  rewrite !record_cons.
  destruct (undoLastAction_top lst a3 (a2 :: a1 :: h) R3)
    as (l3 & o3 & E3 & V3).
  destruct (undoLastAction_top l3 a2 (a1 :: h) R2)
    as (l2 & o2 & E2 & V2).
  destruct (undoLastAction_top l2 a1 h R1) as (l1 & o1 & E1 & V1).
  exists l3, o3, l2, o2, l1, o1.
  split; [exact E3|]. split; [exact V3|].
  split; [exact E2|]. split; [exact V2|].
  split; [exact E1|exact V1].
Qed.

Lemma undo_is_lifo_witness :
  exists l3 o3 l2 o2 l1 o1,
    undoLastAction
      (mkTaskList [mkTask 2 "y" false] 3)
      (record (record (record [] (mkAction ACTION_ADD 1 (Some "x") false))
                      (mkAction ACTION_REMOVE 1 (Some "x") false))
              (mkAction ACTION_ADD 2 (Some "y") false))
    = Some (l3,
            record (record [] (mkAction ACTION_ADD 1 (Some "x") false))
                   (mkAction ACTION_REMOVE 1 (Some "x") false),
            o3)
    /\ reverts (mkAction ACTION_ADD 2 (Some "y") false)
               (mkTaskList [mkTask 2 "y" false] 3) l3 o3
    /\ undoLastAction
         l3
         (record (record [] (mkAction ACTION_ADD 1 (Some "x") false))
                 (mkAction ACTION_REMOVE 1 (Some "x") false))
       = Some (l2, record [] (mkAction ACTION_ADD 1 (Some "x") false), o2)
    /\ reverts (mkAction ACTION_REMOVE 1 (Some "x") false) l3 l2 o2
    /\ undoLastAction
         l2 (record [] (mkAction ACTION_ADD 1 (Some "x") false))
       = Some (l1, [], o1)
    /\ reverts (mkAction ACTION_ADD 1 (Some "x") false) l2 l1 o1.
Proof.
  apply (undo_is_lifo
           (mkTaskList [mkTask 2 "y" false] 3) []
           (mkAction ACTION_ADD 1 (Some "x") false)
           (mkAction ACTION_REMOVE 1 (Some "x") false)
           (mkAction ACTION_ADD 2 (Some "y") false)).
  - intro H; discriminate H.
  - intros _; discriminate.
  - intro H; discriminate H.
Defined.

(** C9. When the action popped is an [ACTION_ADD] or an
    [ACTION_COMPLETE] and no node carries its id, the undo reports the
    inconsistency for that id and leaves the list as it was; and
    whatever the outcome of an undo, the action popped is gone and the
    history is exactly the entries that were underneath it. *)
Theorem undo_missing_target_consumes_action
    (lst : TaskList) (a : Action) (h : ActionStack)
    (Hkind : type a <> ACTION_REMOVE)
    (Hgone : absent (task_id a) (tasks lst)) :
  undoLastAction lst (a :: h)
  = Some (lst, h,
          [MsgUndoing;
           match type a with
           | ACTION_ADD => MsgUndoAddMissing (task_id a)
           | _ => MsgUndoCompleteMissing (task_id a)
           end])
  /\ List.length h = (List.length (a :: h) - 1)%nat
  /\ (forall lst0 b, recorded b ->
        exists lst1 out, undoLastAction lst0 (b :: h) = Some (lst1, h, out)).
Proof.
  split; [|split].
  - unfold undoLastAction. cbn [popAction].
    destruct a as [ty i d w]. cbn in *. destruct ty.
    + rewrite unlink_absent by assumption. reflexivity.
    + rewrite setCompleted_absent by assumption. reflexivity.
    + contradiction.
  - simpl. lia.
  - intros lst0 b R.
    destruct (undoLastAction_top lst0 b h R) as (l & o & E & _).
    eauto.
Qed.

Lemma undo_missing_target_consumes_action_witness :
  undoLastAction (mkTaskList [mkTask 1 "a" false] 3)
                 [mkAction ACTION_ADD 2 (Some "b") false;
                  mkAction ACTION_ADD 1 (Some "a") false]
  = Some (mkTaskList [mkTask 1 "a" false] 3,
          [mkAction ACTION_ADD 1 (Some "a") false],
          [MsgUndoing; MsgUndoAddMissing 2])
  /\ undoLastAction (mkTaskList [mkTask 1 "a" false] 3)
                    [mkAction ACTION_COMPLETE 2 None false]
     = Some (mkTaskList [mkTask 1 "a" false] 3, [],
             [MsgUndoing; MsgUndoCompleteMissing 2]).
Proof.
  split.
  - apply (undo_missing_target_consumes_action
             (mkTaskList [mkTask 1 "a" false] 3)
             (mkAction ACTION_ADD 2 (Some "b") false)
             [mkAction ACTION_ADD 1 (Some "a") false]).
    + discriminate.
    + constructor; [vm_compute; discriminate|constructor].
  - apply (undo_missing_target_consumes_action
             (mkTaskList [mkTask 1 "a" false] 3)
             (mkAction ACTION_COMPLETE 2 None false) []).
    + discriminate.
    + constructor; [vm_compute; discriminate|constructor].
Defined.

(** ** A command followed by its undo *)

(** C6. Completing a pending task through the command loop and undoing
    right away gives back the state as it was, the flag false again;
    completing a task that is already completed pushes nothing on the
    history, so no later undo has that call to revert. *)
Theorem complete_then_undo_restores_flag
    (st : State) (i : Z) (pre : list Task) (t : Task) (post : list Task)
    (H : first_with i pre t post (tasks (myTasks st))) :
  (completed t = false ->
   exists st1,
     step (CmdComplete i) st = Some (st1, [MsgMarkedCompleted i])
     /\ option_map completed (findTask (tasks (myTasks st1)) i) = Some true
     /\ undoStack st1
        = pushAction (undoStack st) ACTION_COMPLETE i None false
     /\ step CmdUndo st1 = Some (st, [MsgUndoing; MsgUndoneComplete i false])
     /\ option_map completed (findTask (tasks (myTasks st)) i) = Some false)
  /\ (completed t = true ->
      step (CmdComplete i) st = Some (st, [MsgAlreadyCompleted i])).
Proof.
  split; intros C.
  - pose proof (first_with_set i pre t post _ true H) as H'.
    exists (mkState
              (mkTaskList (pre ++ mkTask (id t) (description t) true :: post)
                          (next_id (myTasks st)))
              (pushAction (undoStack st) ACTION_COMPLETE i None false)).
    split.
    { unfold step. rewrite (completeTask_pending _ _ pre t post H C).
      rewrite (findTask_first i pre t post _ H). cbv iota beta.
      rewrite C. reflexivity. }
    cbn [myTasks undoStack tasks next_id].
    split; [rewrite (findTask_first i _ _ _ _ H'); reflexivity|].
    split; [reflexivity|].
    split;
      [|rewrite (findTask_first i _ _ _ _ H); cbn [option_map];
        rewrite C; reflexivity].
    unfold step, undoLastAction, pushAction.
    cbn [myTasks undoStack tasks next_id popAction type task_id
         was_completed].
    rewrite (setCompleted_first i pre _ post _ false H').
    cbn [id description]. rewrite <- C, task_eta.
    destruct H as (<- & _ & _). rewrite taskList_eta, state_eta.
    rewrite C. reflexivity.
  - unfold step. rewrite (completeTask_done _ _ pre t post H C).
    rewrite state_eta. reflexivity.
Qed.

Lemma complete_then_undo_restores_flag_witness :
  run [CmdComplete 1; CmdUndo]
      (mkState (mkTaskList [mkTask 1 "a" false; mkTask 2 "b" true] 3) [])
  = Some (mkState (mkTaskList [mkTask 1 "a" false; mkTask 2 "b" true] 3) [],
          [MsgMarkedCompleted 1; MsgUndoing; MsgUndoneComplete 1 false])
  /\ step (CmdComplete 2)
          (mkState (mkTaskList [mkTask 1 "a" false; mkTask 2 "b" true] 3) [])
     = Some (mkState (mkTaskList [mkTask 1 "a" false; mkTask 2 "b" true] 3)
                     [],
             [MsgAlreadyCompleted 2]).
Proof.
  split; [reflexivity|].
  apply (complete_then_undo_restores_flag
           (mkState (mkTaskList [mkTask 1 "a" false; mkTask 2 "b" true] 3) [])
           2 [mkTask 1 "a" false] (mkTask 2 "b" true) []).
  - repeat split. constructor; [vm_compute; discriminate|constructor].
  - reflexivity.
Defined.


(** C2. Whatever the state and whichever task [t] of the list is named,
    removing by the id of [t] and undoing right away ends with [t] in the
    list, same id, description and flag.  The node that was detached (the
    first one carrying that id) is now the last node, the others kept
    their order, and the history is as it was before the removal. *)
Theorem remove_then_undo_restores_task (st : State) (t : Task)
    (Hin : In t (tasks (myTasks st))) :
  exists st' out,
    run [CmdRemove (id t); CmdUndo] st = Some (st', out)
    /\ In t (tasks (myTasks st'))
    /\ undoStack st' = undoStack st
    /\ exists pre t0 post,
         first_with (id t) pre t0 post (tasks (myTasks st))
         /\ tasks (myTasks st') = pre ++ post ++ [t0].
Proof.
  destruct (absent_or_first (id t) (tasks (myTasks st)))
    as [A|(pre & t0 & post & H)].
  { rewrite absent_In in A. exfalso. exact (A t Hin eq_refl). }
  pose proof H as (Ets & Eid & Apre).
  cbn [run]. unfold step at 1. unfold removeTask.
  rewrite (unlink_first _ pre t0 post _ H).
  unfold step, undoLastAction, pushAction, createTask.
  cbn [myTasks undoStack tasks next_id popAction type task_id
       task_description was_completed id description completed].
  rewrite task_eta.
  eexists _, _. split; [reflexivity|].
  cbn [myTasks undoStack tasks next_id].
  split.
  { rewrite Ets in Hin. rewrite <- app_assoc.
    rewrite in_app_iff in *. simpl in *. rewrite in_app_iff. simpl.
    tauto. }
  split; [reflexivity|].
  exists pre, t0, post. rewrite <- app_assoc. auto.
Qed.

Lemma remove_then_undo_restores_task_witness :
  exists st' out,
    run [CmdRemove 1; CmdUndo]
        (mkState (mkTaskList [mkTask 1 "a" true; mkTask 2 "b" false] 3) [])
    = Some (st', out)
    /\ In (mkTask 1 "a" true) (tasks (myTasks st')).
Proof.
  destruct (remove_then_undo_restores_task
              (mkState
                 (mkTaskList [mkTask 1 "a" true; mkTask 2 "b" false] 3) [])
              (mkTask 1 "a" true))
    as (st' & out & Hrun & Hin & _).
  - simpl. left. reflexivity.
  - exists st', out. split; assumption.
Defined.

(** C4 taken literally fails on the very first add: the counter handed
    back by the undo is the one the add left, not the one it found. *)
Lemma add_then_undo_does_not_restore_next_id :
  ~ add_undo_restores initState "x".
Proof.
  intros (st' & out & Hrun & _ & Hnext).
  vm_compute in Hrun. injection Hrun as <- _.
  vm_compute in Hnext. discriminate Hnext.
Qed.

(** C4, amended.  In a state where no node already carries the id about
    to be handed out (every state the program reaches is such), an add
    followed right away by an undo leaves the list with exactly the nodes
    it had, in their order, and the history as it was; [next_id] is not
    taken back: it keeps the value the add gave it, one more than
    before. *)
Theorem add_then_undo_keeps_tasks_and_advances_next_id
    (st : State) (d : string)
    (Hlo : Int.INT_MIN <= next_id (myTasks st))
    (Hhi : next_id (myTasks st) < Int.INT_MAX)
    (Hfresh : absent (next_id (myTasks st)) (tasks (myTasks st))) :
  run [CmdAdd d; CmdUndo] st
  = Some (mkState (mkTaskList (tasks (myTasks st))
                              (next_id (myTasks st) + 1))
                  (undoStack st),
          [MsgAdded d (next_id (myTasks st));
           MsgUndoing; MsgUndoneAdd (next_id (myTasks st))]).
Proof.
  assert (Hr : Int.in_range (next_id (myTasks st))).
  { unfold Int.in_range. unfold Int.INT_MAX in *. lia. }
  cbn [run]. unfold step at 1.
  rewrite addTask_no_overflow by assumption. cbv iota beta.
  cbn [next_id]. rewrite IntFacts.sub_1_succ by assumption.
  unfold step, undoLastAction, pushAction.
  cbn [myTasks undoStack tasks next_id popAction type task_id].
  rewrite (unlink_first (next_id (myTasks st)) (tasks (myTasks st))
             (mkTask (next_id (myTasks st)) d false) []).
  - rewrite app_nil_r. reflexivity.
  - repeat split. assumption.
Qed.

Lemma add_then_undo_keeps_tasks_and_advances_next_id_witness :
  run [CmdAdd "b"; CmdUndo]
      (mkState (mkTaskList [mkTask 1 "a" false] 2) [])
  = Some (mkState (mkTaskList [mkTask 1 "a" false] 3) [],
          [MsgAdded "b" 2; MsgUndoing; MsgUndoneAdd 2]).
Proof.
  apply (add_then_undo_keeps_tasks_and_advances_next_id
           (mkState (mkTaskList [mkTask 1 "a" false] 2) []) "b").
  - vm_compute. discriminate.
  - vm_compute. reflexivity.
  - constructor; [vm_compute; discriminate|constructor].
Defined.

(** Why the amended statement asks for a fresh id: were a node already
    carrying the id about to be handed out, the undo would detach that
    older node and keep the new one. *)
Example add_then_undo_with_a_stale_id :
  run [CmdAdd "b"; CmdUndo]
      (mkState (mkTaskList [mkTask 1 "a" false] 1) [])
  = Some (mkState (mkTaskList [mkTask 1 "b" false] 2) [],
          [MsgAdded "b" 1; MsgUndoing; MsgUndoneAdd 1]).
Proof. reflexivity. Qed.

(** ** The id invariant *)

Lemma added_ids_listTasks (lst : TaskList) : added_ids (listTasks lst) = [].
Proof.
  unfold listTasks. destruct (tasks lst) as [|t ts]; [reflexivity|].
  generalize (t :: ts). intros l. cbn [added_ids].
  induction l as [|u l IH]; simpl; auto.
Qed.

Lemma tasks_bound_weaken (n m : Z) (ts : list Task) :
  n <= m ->
  Forall (fun t => Int.INT_MIN <= id t < n) ts ->
  Forall (fun t => Int.INT_MIN <= id t < m) ts.
Proof.
  intros Hle H. eapply Forall_impl; [|exact H]. simpl. intros; lia.
Qed.

Lemma issued_bound_weaken (n m : Z) (js : list Z) :
  n <= m -> Forall (fun j => j < n) js -> Forall (fun j => j < m) js.
Proof.
  intros Hle H. eapply Forall_impl; [|exact H]. simpl. intros; lia.
Qed.

Ltac inv_fields :=
  unfold Inv; cbn [myTasks undoStack tasks next_id];
  rewrite ?app_nil_r.

(** The top of the history is not a recorded removal. *)
Ltac not_a_removal :=
  let E := fresh "E" in
  intros ? ? ? ? _ E; unfold pushAction in E; discriminate E.

(** The case of a command that changes neither the list nor the history. *)
Ltac state_kept :=
  split;
  [ repeat split; first [assumption | lia]
  | split; [cbn; lia | discriminate] ].

(** C3. Every command keeps [next_id] strictly above every id handed out
    so far (the ghost list [issued], extended by the id the command
    itself hands out) and above the id of every node of the list, and
    never lowers it.  The undo of a removal puts the node back under its
    old id and sets [next_id] to the larger of its value and that id plus
    one, so the id of the next [addTask] is above the id put back. *)
Theorem next_id_exceeds_every_issued_id
    (issued : list Z) (st : State) (c : Command)
    (HInv : Inv issued st)
    (Hroom : next_id (myTasks st) < Int.INT_MAX) :
  exists st' out,
    step c st = Some (st', out)
    /\ Inv (issued ++ added_ids out) st'
    /\ next_id (myTasks st) <= next_id (myTasks st')
    /\ (forall h i d b,
          c = CmdUndo ->
          undoStack st = pushAction h ACTION_REMOVE i (Some d) b ->
          tasks (myTasks st') = tasks (myTasks st) ++ [mkTask i d b]
          /\ next_id (myTasks st') = Z.max (next_id (myTasks st)) (i + 1)
          /\ forall d',
               added_ids (snd (addTask (myTasks st') d'))
               = [next_id (myTasks st')]
               /\ i < next_id (myTasks st')).
Proof.
  destruct HInv as (Hrange & Hissued & Htasks & Hstack).
  destruct Hrange as [Hlo Hhi].
  destruct c as [d| |i|i|].
  - (* add *)
    unfold step. rewrite addTask_no_overflow by assumption.
    cbv iota beta. cbn [next_id].
    rewrite IntFacts.sub_1_succ by (split; assumption).
    eexists _, _. split; [reflexivity|].
    split; [|split; [cbn; lia|discriminate]].
    inv_fields. cbn [added_ids]. unfold Int.in_range.
    repeat split; try lia.
    + apply Forall_app. split.
      * eapply issued_bound_weaken; [|eassumption]. lia.
      * repeat constructor. lia.
    + apply Forall_app. split.
      * eapply tasks_bound_weaken; [|eassumption]. lia.
      * repeat constructor; cbn; lia.
    + constructor; [|assumption]. cbn. repeat split; try lia.
      discriminate.
  - (* list *)
    eexists _, _. split; [reflexivity|].
    rewrite added_ids_listTasks, app_nil_r. state_kept.
  - (* complete *)
    unfold step.
    destruct (absent_or_first i (tasks (myTasks st)))
      as [A|(pre & t & post & H)].
    + rewrite (completeTask_absent _ _ A). rewrite state_eta.
      eexists _, _. split; [reflexivity|]. cbn [added_ids].
      rewrite app_nil_r. state_kept.
    + destruct (completed t) eqn:C.
      * rewrite (completeTask_done _ _ pre t post H C). rewrite state_eta.
        eexists _, _. split; [reflexivity|]. cbn [added_ids].
        rewrite app_nil_r. state_kept.
      * rewrite (completeTask_pending _ _ pre t post H C).
        eexists _, _. split; [reflexivity|]. cbn [added_ids].
        split; [|split; [cbn; lia|discriminate]].
        destruct H as (Ets & Eid & _). rewrite Ets in Htasks.
        apply Forall_app in Htasks. destruct Htasks as [Hpre Hrest].
        inversion Hrest as [|? ? Ht Hpost]; subst.
        inv_fields. repeat split; try assumption.
        -- apply Forall_app. split; [assumption|].
           constructor; [exact Ht|assumption].
        -- constructor; [|assumption]. cbn. repeat split; try lia.
           discriminate.
  - (* remove *)
    unfold step, removeTask.
    destruct (absent_or_first i (tasks (myTasks st)))
      as [A|(pre & t & post & H)].
    + rewrite (unlink_absent _ _ A). rewrite state_eta.
      eexists _, _. split; [reflexivity|]. cbn [added_ids].
      rewrite app_nil_r. state_kept.
    + rewrite (unlink_first _ _ _ _ _ H).
      eexists _, _. split; [reflexivity|]. cbn [added_ids].
      split; [|split; [cbn; lia|discriminate]].
      destruct H as (Ets & Eid & _). rewrite Ets in Htasks.
      apply Forall_app in Htasks. destruct Htasks as [Hpre Hrest].
      inversion Hrest as [|? ? Ht Hpost]; subst.
      inv_fields. repeat split; try assumption.
      * apply Forall_app. split; assumption.
      * constructor; [|assumption]. cbn. repeat split; try lia.
        intros _. discriminate.
  - (* undo *)
    unfold step, undoLastAction.
    destruct (undoStack st) as [|a h0] eqn:Estack; cbn [popAction].
    + eexists _, _. split; [reflexivity|]. cbn [added_ids].
      rewrite app_nil_r.
      split; [|split; [cbn; lia|not_a_removal]].
      inv_fields. repeat split; assumption.
    + inversion Hstack as [|? ? [[Halo Hahi] Hrec] Hbelow]; subst.
      destruct a as [ty j od w]. unfold recorded in Hrec. cbn in *.
      destruct ty.
      * (* the action was an add *)
        destruct (absent_or_first j (tasks (myTasks st)))
          as [A|(pre & t & post & H)].
        -- rewrite (unlink_absent _ _ A).
           eexists _, _. split; [reflexivity|].
           split; [|split; [cbn; lia|not_a_removal]].
           inv_fields. repeat split; assumption.
        -- rewrite (unlink_first _ _ _ _ _ H).
           eexists _, _. split; [reflexivity|].
           split; [|split; [cbn; lia|not_a_removal]].
           destruct H as (Ets & Eid & _). rewrite Ets in Htasks.
           apply Forall_app in Htasks. destruct Htasks as [Hpre Hrest].
           inversion Hrest as [|? ? Ht Hpost]; subst.
           inv_fields. repeat split; try assumption.
           apply Forall_app. split; assumption.
      * (* the action was a completion *)
        destruct (absent_or_first j (tasks (myTasks st)))
          as [A|(pre & t & post & H)].
        -- rewrite (setCompleted_absent _ _ _ A).
           eexists _, _. split; [reflexivity|].
           split; [|split; [cbn; lia|not_a_removal]].
           inv_fields. repeat split; assumption.
        -- rewrite (setCompleted_first _ _ _ _ _ _ H).
           eexists _, _. split; [reflexivity|].
           split; [|split; [cbn; lia|not_a_removal]].
           destruct H as (Ets & Eid & _). rewrite Ets in Htasks.
           apply Forall_app in Htasks. destruct Htasks as [Hpre Hrest].
           inversion Hrest as [|? ? Ht Hpost]; subst.
           inv_fields. repeat split; try assumption.
           apply Forall_app. split; [assumption|].
           constructor; [exact Ht|assumption].
      * (* the action was a removal *)
        destruct od as [d|]; [|exfalso; now apply Hrec].
        rewrite IntFacts.add_1_no_overflow by assumption.
        eexists _, _. split; [reflexivity|].
        cbn [myTasks undoStack tasks next_id added_ids
             id description createTask].
        rewrite app_nil_r.
        assert (Hmax :
                 (if next_id (myTasks st) <=? j then j + 1
                  else next_id (myTasks st))
                 = Z.max (next_id (myTasks st)) (j + 1)).
        { destruct (Z.leb_spec (next_id (myTasks st)) j); lia. }
        rewrite Hmax.
        split; [|split; [lia|]].
        -- unfold Inv, Int.in_range.
           cbn [myTasks undoStack tasks next_id].
           unfold Int.INT_MAX, Int.INT_MIN in *.
           repeat split; try lia; try assumption.
           ++ eapply issued_bound_weaken; [|eassumption]. lia.
           ++ apply Forall_app. split.
              ** eapply Forall_impl; [|exact Htasks]. simpl. intros; lia.
              ** repeat constructor; cbn; lia.
        -- intros h i d0 b _ Epush. unfold pushAction in Epush.
           injection Epush as <- <- <- <-.
           repeat split; try reflexivity. lia.
Qed.

Lemma next_id_exceeds_every_issued_id_witness :
  exists st' out,
    step CmdUndo
         (mkState (mkTaskList [] 2) [mkAction ACTION_REMOVE 5 (Some "e") true])
    = Some (st', out)
    /\ Inv ([1] ++ added_ids out) st'
    /\ tasks (myTasks st') = [mkTask 5 "e" true]
    /\ next_id (myTasks st') = 6.
Proof.
  destruct (next_id_exceeds_every_issued_id
              [1]
              (mkState (mkTaskList [] 2)
                       [mkAction ACTION_REMOVE 5 (Some "e") true])
              CmdUndo)
    as (st' & out & Hstep & HInv & _ & Hremoval).
  - unfold Inv, Int.in_range, recorded, Int.INT_MIN, Int.INT_MAX.
    cbn [myTasks undoStack tasks next_id].
    split; [lia|]. split; [constructor; [lia|constructor]|].
    split; [constructor|].
    constructor; [|constructor].
    cbn [task_id type task_description].
    split; [lia|]. intros _. discriminate.
  - unfold Int.INT_MAX. cbn [myTasks next_id]. lia.
  - destruct (Hremoval [] 5 "e" true eq_refl eq_refl) as (Hts & Hn & _).
    exists st', out.
    split; [exact Hstep|]. split; [exact HInv|].
    split; [exact Hts|exact Hn].
Defined.

(** The program starts inside the invariant, with no id handed out. *)
Lemma Inv_initState : Inv [] initState.
Proof.
  unfold Inv, Int.in_range, Int.INT_MIN, Int.INT_MAX, initState.
  cbn [myTasks undoStack tasks next_id initTaskList initActionStack].
  split; [lia|]. repeat split; constructor.
Qed.

(** * Further properties *)

(** ** Listing *)

Lemma listed_lines (ts : list Task) (tl : list Msg) :
  listed (map (fun t => MsgTaskLine (id t) (completed t) (description t)) ts
          ++ tl)
  = ts ++ listed tl.
Proof.
  induction ts as [|t ts IH]; simpl; [reflexivity|].
  rewrite IH, task_eta. reflexivity.
Qed.

(** X1. The listing shows every task of the list once, in list order,
    with its id, flag and description; the single no-tasks line is
    printed exactly when the list is empty, and otherwise the listing has
    one line per task between a header and a footer. *)
Theorem listTasks_shows_the_list (lst : TaskList) :
  listed (listTasks lst) = tasks lst
  /\ (listTasks lst = [MsgNoTasks] <-> tasks lst = [])
  /\ (tasks lst <> [] ->
      List.length (listTasks lst) = (List.length (tasks lst) + 2)%nat
      /\ hd_error (listTasks lst) = Some MsgListHeader
      /\ last (listTasks lst) MsgNoTasks = MsgListFooter).
Proof.
  unfold listTasks. destruct (tasks lst) as [|t ts] eqn:E.
  - split; [reflexivity|]. split; [split; reflexivity|].
    intros Hne. contradiction Hne. reflexivity.
  - split.
    { cbn [listed]. rewrite listed_lines. simpl. now rewrite app_nil_r. }
    split; [split; discriminate|].
    intros _. split; [|split; [reflexivity|]].
    + cbn [List.length]. rewrite length_app, length_map. simpl. lia.
    + rewrite app_comm_cons. apply last_last.
Qed.

Lemma listTasks_shows_the_list_witness :
  List.length
    (listTasks (mkTaskList [mkTask 1 "a" false; mkTask 2 "b" true] 3))
  = 4%nat
  /\ last (listTasks (mkTaskList [mkTask 1 "a" false; mkTask 2 "b" true] 3))
          MsgNoTasks
     = MsgListFooter.
Proof.
  destruct (listTasks_shows_the_list
              (mkTaskList [mkTask 1 "a" false; mkTask 2 "b" true] 3))
    as (_ & _ & H).
  destruct H as (Hlen & _ & Hlast); [discriminate|].
  split; [exact Hlen|exact Hlast].
Defined.

(** ** What completing leaves alone *)

Lemma flags_kept_refl (ts : list Task) :
  Forall2 (fun t t' => completed t = true -> completed t' = true) ts ts.
Proof. induction ts; constructor; auto. Qed.

Lemma completeTask_loop_frame (i : Z) (ts : list Task) :
  let ts' := snd (fst (completeTask_loop ts i)) in
  map id ts' = map id ts
  /\ map description ts' = map description ts
  /\ Forall2 (fun t t' => completed t = true -> completed t' = true) ts ts'.
Proof.
  induction ts as [|t ts IH]; simpl.
  - repeat split; constructor.
  - destruct (id t =? i).
    + destruct (completed t) eqn:C; simpl; repeat split;
        try reflexivity; constructor; auto using flags_kept_refl.
    + destruct (completeTask_loop ts i) as [[r ts'] m]. simpl in *.
      destruct IH as (Hid & Hdesc & Hflag).
      repeat split; try congruence. constructor; auto.
Qed.

(** X2. Whatever its outcome, [completeTask] keeps the number and order
    of the nodes, every id, every description and the counter; a flag
    that was set stays set. *)
Theorem completeTask_keeps_ids_and_descriptions (lst : TaskList) (i : Z) :
  let lst' := snd (fst (completeTask lst i)) in
  map id (tasks lst') = map id (tasks lst)
  /\ map description (tasks lst') = map description (tasks lst)
  /\ next_id lst' = next_id lst
  /\ Forall2 (fun t t' => completed t = true -> completed t' = true)
             (tasks lst) (tasks lst').
Proof.
  unfold completeTask.
  pose proof (completeTask_loop_frame i (tasks lst)) as H.
  destruct (completeTask_loop (tasks lst) i) as [[r ts'] m].
  simpl in *. tauto.
Qed.

(** ** Removing twice *)

Lemma absent_map_id (i : Z) (ts : list Task) :
  absent i ts <-> ~ In i (map id ts).
Proof.
  rewrite absent_In, in_map_iff. split.
  - intros H (t & E & Hin). exact (H t Hin E).
  - intros H t Hin E. apply H. exists t. auto.
Qed.

Lemma NoDup_ids_without (pre : list Task) (t : Task) (post : list Task) :
  NoDup (map id (pre ++ t :: post)) ->
  NoDup (map id (pre ++ post)) /\ ~ In (id t) (map id (pre ++ post)).
Proof.
  rewrite !map_app. cbn [map]. intros H. split.
  - eapply NoDup_remove_1; eassumption.
  - eapply NoDup_remove_2; eassumption.
Qed.

Lemma unlink_cases (i : Z) (ts : list Task) :
  (unlink ts i = None /\ absent i ts)
  \/ exists pre t post,
       first_with i pre t post ts /\ unlink ts i = Some (t, pre ++ post).
Proof.
  destruct (absent_or_first i ts) as [A|(pre & t & post & H)].
  - left. split; [apply unlink_absent|]; assumption.
  - right. exists pre, t, post. split; [assumption|].
    apply unlink_first; assumption.
Qed.

(** X3. In a list whose ids are pairwise distinct, a removal that finds
    its task takes away the only node with that id: the list is one node
    shorter, its ids are still distinct, and removing the same id again
    reports not-found and changes nothing. *)
Theorem removeTask_twice_reports_not_found
    (lst : TaskList) (i : Z) (t : Task) (lst' : TaskList) (out : list Msg)
    (Hids : NoDup (map id (tasks lst)))
    (Hrem : removeTask lst i = (Some t, lst', out)) :
  id t = i
  /\ In t (tasks lst)
  /\ absent i (tasks lst')
  /\ S (List.length (tasks lst')) = List.length (tasks lst)
  /\ NoDup (map id (tasks lst'))
  /\ removeTask lst' i = (None, lst', [MsgNotFound i]).
Proof.
  unfold removeTask in Hrem.
  destruct (unlink_cases i (tasks lst))
    as [[E _]|(pre & t0 & post & H & E)]; rewrite E in Hrem.
  { discriminate Hrem. }
  injection Hrem as <- <- <-.
  destruct H as (Ets & Eid & _). rewrite Ets in Hids.
  destruct (NoDup_ids_without _ _ _ Hids) as [Hnd Hnot].
  assert (A : absent i (pre ++ post)).
  { apply absent_map_id. rewrite <- Eid. assumption. }
  cbn [tasks]. repeat split; try assumption.
  - rewrite Ets. apply in_elt.
  - rewrite Ets, !length_app. simpl. lia.
  - unfold removeTask. cbn [tasks].
    rewrite (unlink_absent _ _ A). reflexivity.
Qed.

Lemma removeTask_twice_reports_not_found_witness :
  removeTask (mkTaskList [mkTask 1 "a" false] 3) 2
  = (None, mkTaskList [mkTask 1 "a" false] 3, [MsgNotFound 2]).
Proof.
  apply (removeTask_twice_reports_not_found
           (mkTaskList [mkTask 1 "a" false; mkTask 2 "b" true] 3) 2
           (mkTask 2 "b" true)
           (mkTaskList [mkTask 1 "a" false] 3)
           [MsgRemoved 2 "b"]).
  - repeat constructor; simpl; intuition discriminate.
  - reflexivity.
Defined.

(** ** Reading a description *)

(** X4. The description kept from a buffer filled by [fgets] is exactly
    the text before the first newline of the buffer: for a text [line]
    without newline, a buffer made of [line], a newline and anything
    after it is cut down to [line], and a buffer that is just [line] is
    kept whole. *)
Theorem strip_newline_cuts_at_first_newline (line rest : string)
    (Hline : ~ In "010"%char (list_ascii_of_string line)) :
  strip_newline (line ++ String "010"%char rest)%string = line
  /\ strip_newline line = line.
Proof.
  induction line as [|ch line IH]; cbn [strip_newline String.append].
  - rewrite Ascii.eqb_refl. auto.
  - cbn [list_ascii_of_string] in Hline.
    assert (N : Ascii.eqb ch "010"%char = false).
    { apply Ascii.eqb_neq. intros ->. apply Hline. left. reflexivity. }
    rewrite N. destruct IH as [IH1 IH2].
    { intros Hin. apply Hline. right. exact Hin. }
    rewrite IH1, IH2. auto.
Qed.

Lemma strip_newline_cuts_at_first_newline_witness :
  strip_newline "buy milk
pay bills
" = "buy milk".
Proof.
  destruct (strip_newline_cuts_at_first_newline "buy milk" "pay bills
") as [Hcut _].
  - simpl. intuition discriminate.
  - exact Hcut.
Defined.

(** ** The states the program moves through *)

Lemma in_remove_iff (i x : Z) (ids : list Z) :
  In x (List.remove Z.eq_dec i ids) <-> In x ids /\ x <> i.
Proof.
  split.
  - apply in_remove.
  - intros [Hin N]. apply in_in_remove; assumption.
Qed.

Lemma replay_mono (n m : Z) (h : ActionStack) :
  n <= m -> forall ids, replay n ids h -> replay m ids h.
Proof.
  intros Hle. induction h as [|a h IH]; intros ids; simpl; [trivial|].
  destruct (type a).
  - intros [Hin H]. split; auto.
  - intros [Hin H]. split; auto.
  - intros (Hd & Hb & Hnot & H). repeat split; auto; lia.
Qed.

Lemma replay_ext (n : Z) (h : ActionStack) :
  forall a b : list Z,
    (forall x, In x a <-> In x b) -> replay n a h -> replay n b h.
Proof.
  induction h as [|act h IH]; intros a b Hab; simpl; [trivial|].
  destruct (type act).
  - intros [Hin H]. split; [now apply Hab|].
    apply (IH (List.remove Z.eq_dec (task_id act) a)); [|assumption].
    intros x. rewrite !in_remove_iff, Hab. tauto.
  - intros [Hin H]. split; [now apply Hab|]. now apply (IH a).
  - intros (Hd & Hb & Hnot & H). repeat split; try tauto.
    + rewrite <- Hab. assumption.
    + apply (IH (a ++ [task_id act])); [|assumption].
      intros x. rewrite !in_app_iff, Hab. tauto.
Qed.

Lemma first_with_of_In (i : Z) (ts : list Task) :
  In i (map id ts) -> exists pre t post, first_with i pre t post ts.
Proof.
  intros Hin. destruct (absent_or_first i ts) as [A|H]; [|assumption].
  apply absent_map_id in A. contradiction.
Qed.

Lemma map_id_set (pre : list Task) (t : Task) (post : list Task) (b : bool) :
  map id (pre ++ mkTask (id t) (description t) b :: post)
  = map id (pre ++ t :: post).
Proof. rewrite !map_app. reflexivity. Qed.

Lemma tasks_range_set (n : Z) (pre : list Task) (t : Task)
    (post : list Task) (b : bool) :
  Forall (fun u => 1 <= id u < n) (pre ++ t :: post) ->
  Forall (fun u => 1 <= id u < n)
         (pre ++ mkTask (id t) (description t) b :: post).
Proof.
  rewrite !Forall_app. intros [Hpre Hrest].
  inversion Hrest; subst. split; [assumption|]. constructor; assumption.
Qed.

Lemma tasks_range_without (n : Z) (pre : list Task) (t : Task)
    (post : list Task) :
  Forall (fun u => 1 <= id u < n) (pre ++ t :: post) ->
  1 <= id t < n /\ Forall (fun u => 1 <= id u < n) (pre ++ post).
Proof.
  rewrite !Forall_app. intros [Hpre Hrest].
  inversion Hrest; subst. auto.
Qed.

Lemma ids_below_not_in (n : Z) (ts : list Task) :
  Forall (fun u => 1 <= id u < n) ts -> ~ In n (map id ts).
Proof.
  intros H Hin. apply in_map_iff in Hin. destruct Hin as (t & E & Hin).
  rewrite Forall_forall in H. specialize (H t Hin). lia.
Qed.

Lemma NoDup_ids_snoc (ts : list Task) (t : Task) :
  NoDup (map id ts) -> ~ In (id t) (map id ts) ->
  NoDup (map id (ts ++ [t])).
Proof.
  intros Hnd Hnot. rewrite map_app. cbn [map].
  apply NoDup_app; [assumption|repeat constructor; auto|].
  intros x Hin [<-|[]]. contradiction.
Qed.

Ltac reach_fields :=
  unfold Reach; cbn [myTasks undoStack tasks next_id].

(** One iteration from a reachable state, with room left in the counter
    if it is an add: it is defined, lands in a reachable state, moves the counter only if
    it is an add, and reports no inconsistency. *)
Lemma step_Reach (c : Command) (st : State) :
  Reach st ->
  (is_add c = true -> next_id (myTasks st) < Int.INT_MAX) ->
  exists st' out,
    step c st = Some (st', out)
    /\ Reach st'
    /\ next_id (myTasks st')
       = next_id (myTasks st) + (if is_add c then 1 else 0)
    /\ Forall (fun m => ~ inconsistency m) out.
Proof.
  intros ((Hlo & Hhi) & Hnd & Hrange & Hreplay) Hroom.
  assert (Hmin : Int.INT_MIN <= next_id (myTasks st)).
  { unfold Int.INT_MIN. lia. }
  destruct c as [d| |i|i|]; cbn [is_add] in *; rewrite ?Z.add_0_r.
  - (* add *)
    specialize (Hroom eq_refl).
    unfold step. rewrite addTask_no_overflow by assumption.
    cbv iota beta. cbn [next_id].
    rewrite IntFacts.sub_1_succ
      by (unfold Int.in_range; unfold Int.INT_MIN; lia).
    eexists _, _. split; [reflexivity|].
    split; [|split; [reflexivity|repeat constructor; simpl; tauto]].
    pose proof (ids_below_not_in _ _ Hrange) as Hfresh.
    reach_fields. split; [lia|]. split; [|split].
    + apply NoDup_ids_snoc; assumption.
    + apply Forall_app. split.
      * eapply Forall_impl; [|exact Hrange]. simpl. intros; lia.
      * repeat constructor; cbn; lia.
    + unfold pushAction. cbn [replay type task_id]. rewrite map_app.
      cbn [map id]. split; [apply in_app_iff; right; left; reflexivity|].
      apply (replay_ext _ _ (map id (tasks (myTasks st)))).
      * intros x. rewrite in_remove_iff, in_app_iff. simpl.
        split; [intros Hx; split; [tauto|congruence]|].
        intros [[Hx|[Hx|[]]] N]; [assumption|congruence].
      * eapply replay_mono; [|eassumption]. lia.
  - (* list *)
    eexists _, _. split; [reflexivity|].
    split; [repeat split; assumption|]. split; [reflexivity|].
    unfold listTasks. destruct (tasks (myTasks st)) as [|t ts].
    + repeat constructor. simpl. tauto.
    + constructor; [simpl; tauto|]. apply Forall_app. split.
      * apply Forall_map. apply Forall_forall. simpl. tauto.
      * repeat constructor. simpl. tauto.
  - (* complete *)
    unfold step.
    destruct (absent_or_first i (tasks (myTasks st)))
      as [A|(pre & t & post & H)].
    + rewrite (completeTask_absent _ _ A), state_eta.
      eexists _, _. split; [reflexivity|].
      split; [repeat split; assumption|]. split; [reflexivity|].
      repeat constructor. simpl. tauto.
    + destruct (completed t) eqn:C.
      * rewrite (completeTask_done _ _ pre t post H C), state_eta.
        eexists _, _. split; [reflexivity|].
        split; [repeat split; assumption|]. split; [reflexivity|].
        repeat constructor. simpl. tauto.
      * rewrite (completeTask_pending _ _ pre t post H C).
        eexists _, _. split; [reflexivity|].
        split; [|split; [reflexivity|repeat constructor; simpl; tauto]].
        destruct H as (Ets & Eid & _). rewrite Ets in *.
        reach_fields. rewrite map_id_set.
        split; [lia|]. split; [assumption|]. split.
        -- apply tasks_range_set; assumption.
        -- unfold pushAction. cbn [replay type task_id].
           split; [|assumption].
           rewrite map_app, in_app_iff. right. left. exact Eid.
  - (* remove *)
    unfold step, removeTask.
    destruct (unlink_cases i (tasks (myTasks st)))
      as [[E A]|(pre & t & post & H & E)]; rewrite E.
    + rewrite state_eta. eexists _, _. split; [reflexivity|].
      split; [repeat split; assumption|]. split; [reflexivity|].
      repeat constructor. simpl. tauto.
    + eexists _, _. split; [reflexivity|].
      split; [|split; [reflexivity|repeat constructor; simpl; tauto]].
      destruct H as (Ets & Eid & _). rewrite Ets in *.
      destruct (NoDup_ids_without _ _ _ Hnd) as [Hnd' Hnot].
      destruct (tasks_range_without _ _ _ _ Hrange) as [Ht Hrange'].
      reach_fields. split; [lia|]. split; [assumption|].
      split; [assumption|].
      unfold pushAction. cbn [replay type task_id task_description].
      split; [discriminate|]. split; [assumption|].
      split; [assumption|].
      eapply replay_ext; [|eassumption].
      intros x. rewrite !map_app, !in_app_iff. simpl. tauto.
  - (* undo *)
    unfold step, undoLastAction.
    destruct (undoStack st) as [|a h] eqn:Estack; cbn [popAction].
    + eexists _, _. split; [reflexivity|].
      split; [|split; [reflexivity|repeat constructor; simpl; tauto]].
      reach_fields. repeat split; assumption.
    + destruct a as [ty j od w]. cbn [replay type task_id] in Hreplay.
      cbn [type task_id task_description was_completed].
      destruct ty.
      * (* the action was an add *)
        destruct Hreplay as [Hin Hbelow].
        destruct (first_with_of_In _ _ Hin) as (pre & t & post & H).
        rewrite (unlink_first _ _ _ _ _ H).
        eexists _, _. split; [reflexivity|].
        split; [|split; [reflexivity|repeat constructor; simpl; tauto]].
        destruct H as (Ets & Eid & _). rewrite Ets in *.
        destruct (NoDup_ids_without _ _ _ Hnd) as [Hnd' Hnot].
        destruct (tasks_range_without _ _ _ _ Hrange) as [Ht Hrange'].
        reach_fields. split; [lia|]. split; [assumption|].
        split; [assumption|].
        eapply replay_ext; [|exact Hbelow].
        subst j.
        intros x. rewrite in_remove_iff, !map_app, !in_app_iff. simpl.
        rewrite map_app, in_app_iff in Hnot.
        split; [intuition congruence|]. intros Hx. split; [tauto|].
        intros ->. tauto.
      * (* the action was a completion *)
        destruct Hreplay as [Hin Hbelow].
        destruct (first_with_of_In _ _ Hin) as (pre & t & post & H).
        rewrite (setCompleted_first _ _ _ _ _ _ H).
        eexists _, _. split; [reflexivity|].
        split; [|split; [reflexivity|repeat constructor; simpl; tauto]].
        destruct H as (Ets & Eid & _). rewrite Ets in *.
        reach_fields. rewrite map_id_set.
        split; [lia|]. split; [assumption|].
        split; [apply tasks_range_set|]; assumption.
      * (* the action was a removal *)
        cbn [task_description] in Hreplay.
        destruct Hreplay as (Hd & Hj & Hnot & Hbelow).
        destruct od as [d|]; [|contradiction Hd; reflexivity].
        assert (Ecmp : (next_id (myTasks st) <=? j) = false).
        { apply Z.leb_gt. lia. }
        rewrite Ecmp.
        eexists _, _. split; [reflexivity|].
        split; [|split; [reflexivity|repeat constructor; simpl; tauto]].
        reach_fields. cbn [createTask id description].
        split; [lia|]. split; [|split].
        -- apply NoDup_ids_snoc; assumption.
        -- apply Forall_app. split; [assumption|].
           repeat constructor; cbn; lia.
        -- rewrite map_app. exact Hbelow.
Qed.

Lemma Reach_initState : Reach initState.
Proof.
  unfold Reach, initState, initTaskList, initActionStack, Int.INT_MAX.
  cbn. split; [lia|]. repeat split; constructor.
Qed.

Lemma run_Reach (cs : list Command) :
  forall st : State,
    Reach st ->
    next_id (myTasks st) + Z.of_nat (List.length (filter is_add cs))
    <= Int.INT_MAX ->
    exists st' out,
      run cs st = Some (st', out)
      /\ Reach st'
      /\ next_id (myTasks st')
         = next_id (myTasks st) + Z.of_nat (List.length (filter is_add cs))
      /\ Forall (fun m => ~ inconsistency m) out.
Proof.
  induction cs as [|c cs IH]; intros st HR Hroom.
  - exists st, []. cbn. rewrite Z.add_0_r. auto.
  - cbn [run filter] in *.
    destruct (step_Reach c st HR) as (st1 & o1 & E1 & HR1 & N1 & C1).
    { intros Ha. rewrite Ha in Hroom. cbn [List.length] in Hroom. lia. }
    rewrite E1.
    destruct (IH st1 HR1) as (st2 & o2 & E2 & HR2 & N2 & C2).
    { rewrite N1. destruct (is_add c); cbn [List.length] in *; lia. }
    rewrite E2. exists st2, (o1 ++ o2).
    split; [reflexivity|]. split; [assumption|].
    split; [|apply Forall_app; auto].
    rewrite N2, N1. destruct (is_add c); cbn [List.length]; lia.
Qed.

(** X5. In every state the loop reaches from the initial one the ids of
    the tasks are pairwise distinct and lie from 1 to below [next_id],
    as long as the adds issued fit the [int] counter. *)
Theorem reachable_ids_are_distinct (cs : list Command)
    (Hfit : 1 + Z.of_nat (List.length (filter is_add cs)) <= Int.INT_MAX) :
  exists st out,
    run cs initState = Some (st, out)
    /\ NoDup (map id (tasks (myTasks st)))
    /\ Forall (fun t => 1 <= id t < next_id (myTasks st))
              (tasks (myTasks st)).
Proof.
  destruct (run_Reach cs initState Reach_initState Hfit)
    as (st & out & E & (_ & Hnd & Hrange & _) & _).
  exists st, out. auto.
Qed.

Lemma reachable_ids_are_distinct_witness :
  exists st out,
    run [CmdAdd "a"; CmdAdd "b"; CmdRemove 1; CmdAdd "c"; CmdUndo; CmdUndo]
        initState
    = Some (st, out)
    /\ NoDup (map id (tasks (myTasks st))).
Proof.
  destruct (reachable_ids_are_distinct
              [CmdAdd "a"; CmdAdd "b"; CmdRemove 1; CmdAdd "c";
               CmdUndo; CmdUndo])
    as (st & out & E & Hnd & _).
  - vm_compute. discriminate.
  - exists st, out. split; assumption.
Defined.

(** X6. From the initial state [next_id] is one more than the number of
    adds issued so far: no other command moves it, and in particular no
    undo does, neither back after an add nor forward after a removal. *)
Theorem reachable_next_id_counts_adds (cs : list Command)
    (Hfit : 1 + Z.of_nat (List.length (filter is_add cs)) <= Int.INT_MAX) :
  exists st out,
    run cs initState = Some (st, out)
    /\ next_id (myTasks st)
       = 1 + Z.of_nat (List.length (filter is_add cs)).
Proof.
  destruct (run_Reach cs initState Reach_initState Hfit)
    as (st & out & E & _ & N & _).
  exists st, out. auto.
Qed.

Lemma reachable_next_id_counts_adds_witness :
  exists st out,
    run [CmdAdd "a"; CmdUndo; CmdAdd "b"; CmdRemove 2; CmdUndo] initState
    = Some (st, out)
    /\ next_id (myTasks st) = 3.
Proof.
  destruct (reachable_next_id_counts_adds
              [CmdAdd "a"; CmdUndo; CmdAdd "b"; CmdRemove 2; CmdUndo])
    as (st & out & E & N).
  - vm_compute. discriminate.
  - exists st, out. split; [exact E|exact N].
Defined.

(** X7. From the initial state no undo ever finds its target gone: the
    two error lines of [undoLastAction] are never printed. *)
Theorem reachable_undo_never_inconsistent (cs : list Command)
    (Hfit : 1 + Z.of_nat (List.length (filter is_add cs)) <= Int.INT_MAX) :
  exists st out,
    run cs initState = Some (st, out)
    /\ forall i,
         ~ In (MsgUndoAddMissing i) out
         /\ ~ In (MsgUndoCompleteMissing i) out.
Proof.
  destruct (run_Reach cs initState Reach_initState Hfit)
    as (st & out & E & _ & _ & C).
  exists st, out. split; [assumption|].
  rewrite Forall_forall in C.
  intros i. split; intros Hin; apply (C _ Hin); exact I.
Qed.

Lemma reachable_undo_never_inconsistent_witness :
  exists st out,
    run [CmdAdd "a"; CmdRemove 1; CmdUndo; CmdComplete 1; CmdUndo; CmdUndo]
        initState
    = Some (st, out)
    /\ ~ In (MsgUndoAddMissing 1) out.
Proof.
  destruct (reachable_undo_never_inconsistent
              [CmdAdd "a"; CmdRemove 1; CmdUndo; CmdComplete 1;
               CmdUndo; CmdUndo])
    as (st & out & E & C).
  - vm_compute. discriminate.
  - exists st, out. split; [exact E|apply C].
Defined.

(** ** The loop never stops half-way *)

Lemma step_recorded (c : Command) (st : State) :
  Forall recorded (undoStack st) ->
  exists st' out,
    step c st = Some (st', out) /\ Forall recorded (undoStack st').
Proof.
  intros H. destruct c as [d| |i|i|]; unfold step.
  - destruct (addTask (myTasks st) d) as [l out].
    eexists _, _. split; [reflexivity|].
    constructor; [discriminate|assumption].
  - eauto.
  - destruct (completeTask (myTasks st) i) as [[[] l] out];
      eexists _, _; (split; [reflexivity|]); [|assumption].
    constructor; [discriminate|assumption].
  - destruct (removeTask (myTasks st) i) as [[[removed|] l] out];
      eexists _, _; (split; [reflexivity|]); [|assumption].
    constructor; [intros _; discriminate|assumption].
  - destruct (undoStack st) as [|a h] eqn:E.
    + eexists _, _. split; [reflexivity|]. constructor.
    + inversion H as [|? ? Ha Hh]; subst.
      destruct (undoLastAction_top (myTasks st) a h Ha)
        as (l & out & Eu & _).
      rewrite Eu. eexists _, _. split; [reflexivity|]. assumption.
Qed.

(** X8. From the initial state the loop is defined on every sequence of
    commands, of any length: a removal is only ever recorded together
    with the description of the removed task, so no undo reaches
    [createTask] with a null description. *)
Theorem run_from_start_is_defined (cs : list Command) :
  exists st out,
    run cs initState = Some (st, out)
    /\ Forall recorded (undoStack st).
Proof.
  assert (H : forall st, Forall recorded (undoStack st) ->
                         exists st' out,
                           run cs st = Some (st', out)
                           /\ Forall recorded (undoStack st')).
  { induction cs as [|c cs IH]; intros st Hst.
    - exists st, []. auto.
    - cbn [run].
      destruct (step_recorded c st Hst) as (st1 & o1 & E1 & H1).
      rewrite E1.
      destruct (IH st1 H1) as (st2 & o2 & E2 & H2).
      rewrite E2. eauto. }
  apply H. constructor.
Qed.

(** ** What gets recorded *)

Lemma app_neq_self (A : Type) (l : list A) (x : A) : l ++ [x] <> l.
Proof.
  intros E. apply (f_equal (@List.length A)) in E.
  rewrite length_app in E. simpl in E. lia.
Qed.

(** The effect of a command other than undo: nothing at all, or a
    changed list together with one new entry on top of the history. *)
Lemma step_records_changes (c : Command) (st st' : State) (out : list Msg) :
  is_undo c = false ->
  step c st = Some (st', out) ->
  st' = st
  \/ (tasks (myTasks st') <> tasks (myTasks st)
      /\ exists a, undoStack st' = a :: undoStack st).
Proof.
  intros Hc Hstep. destruct c as [d| |i|i|]; try discriminate Hc;
    unfold step in Hstep.
  - right. unfold addTask in Hstep. injection Hstep as <- _.
    cbn [myTasks undoStack tasks]. split; [apply app_neq_self|].
    unfold pushAction. eauto.
  - left. congruence.
  - destruct (absent_or_first i (tasks (myTasks st)))
      as [A|(pre & t & post & H)].
    + rewrite (completeTask_absent _ _ A), state_eta in Hstep.
      left. congruence.
    + destruct (completed t) eqn:C.
      * rewrite (completeTask_done _ _ pre t post H C), state_eta in Hstep.
        left. congruence.
      * rewrite (completeTask_pending _ _ pre t post H C) in Hstep.
        injection Hstep as <- _. right.
        cbn [myTasks undoStack tasks]. split; [|unfold pushAction; eauto].
        destruct H as (-> & _ & _). intros E.
        apply app_inv_head in E. injection E as E.
        rewrite <- E in C. discriminate C.
  - unfold removeTask in Hstep.
    destruct (unlink_cases i (tasks (myTasks st)))
      as [[E A]|(pre & t & post & H & E)]; rewrite E in Hstep.
    + rewrite state_eta in Hstep. left. congruence.
    + injection Hstep as <- _. right.
      cbn [myTasks undoStack tasks]. split; [|unfold pushAction; eauto].
      destruct H as (-> & _ & _). intros E'.
      apply (f_equal (@List.length Task)) in E'.
      rewrite !length_app in E'. simpl in E'. lia.
Qed.

(** X9. The history gets an entry exactly when a command changed the
    list, and then exactly one, on top of the entries already there.
    A listing leaves the whole state as it was; so do a completion or a
    removal whose id no node carries, and a completion of a task already
    completed.  An add changes the list and records an add; a completion
    of a pending task records the completion with the flag [false]; a
    removal that finds its task records it with the id, description and
    flag of the node removed.  An undo takes the top entry away and
    touches none below. *)
Theorem history_records_exactly_the_changes
    (c : Command) (st st' : State) (out : list Msg)
    (Hstep : step c st = Some (st', out)) :
  match c with
  | CmdAdd d =>
      tasks (myTasks st') <> tasks (myTasks st)
      /\ undoStack st'
         = mkAction ACTION_ADD
                    (Int.sub (Int.add (next_id (myTasks st)) 1) 1)
                    (Some d) false
             :: undoStack st
  | CmdList => st' = st
  | CmdComplete i =>
      (absent i (tasks (myTasks st)) -> st' = st)
      /\ (forall pre t post,
            first_with i pre t post (tasks (myTasks st)) ->
            completed t = true -> st' = st)
      /\ (forall pre t post,
            first_with i pre t post (tasks (myTasks st)) ->
            completed t = false ->
            tasks (myTasks st') <> tasks (myTasks st)
            /\ undoStack st'
               = mkAction ACTION_COMPLETE i None false :: undoStack st)
  | CmdRemove i =>
      (absent i (tasks (myTasks st)) -> st' = st)
      /\ (forall pre t post,
            first_with i pre t post (tasks (myTasks st)) ->
            tasks (myTasks st') <> tasks (myTasks st)
            /\ undoStack st'
               = mkAction ACTION_REMOVE (id t) (Some (description t))
                          (completed t)
                   :: undoStack st)
  | CmdUndo => undoStack st' = tl (undoStack st)
  end.
Proof.
  destruct c as [d| |i|i|]; unfold step in Hstep.
  - unfold addTask in Hstep. injection Hstep as <- _.
    cbn [myTasks undoStack tasks next_id]. split; [apply app_neq_self|].
    reflexivity.
  - congruence.
  - split; [|split].
    + intros A. rewrite (completeTask_absent _ _ A), state_eta in Hstep.
      congruence.
    + intros pre t post H C.
      rewrite (completeTask_done _ _ pre t post H C), state_eta in Hstep.
      congruence.
    + intros pre t post H C.
      rewrite (completeTask_pending _ _ pre t post H C) in Hstep.
      rewrite (findTask_first _ _ _ _ _ H), C in Hstep.
      injection Hstep as <- _. cbn [myTasks undoStack tasks].
      split; [|reflexivity].
      destruct H as (-> & _ & _). intros E.
      apply app_inv_head in E. injection E as E.
      rewrite <- E in C. discriminate C.
  - unfold removeTask in Hstep. split.
    + intros A. rewrite (unlink_absent _ _ A), state_eta in Hstep.
      congruence.
    + intros pre t post H. rewrite (unlink_first _ _ _ _ _ H) in Hstep.
      injection Hstep as <- _. cbn [myTasks undoStack tasks].
      split; [|reflexivity].
      destruct H as (-> & _ & _). intros E.
      apply (f_equal (@List.length Task)) in E.
      rewrite !length_app in E. simpl in E. lia.
  - unfold undoLastAction in Hstep.
    destruct (undoStack st) as [|a h]; cbn [popAction tl] in *.
    + injection Hstep as <- _. reflexivity.
    + destruct (type a).
      * destruct (unlink _ _) as [[? ?]|]; injection Hstep as <- _;
          reflexivity.
      * destruct (setCompleted _ _ _); injection Hstep as <- _;
          reflexivity.
      * destruct (task_description a); [|discriminate Hstep].
        injection Hstep as <- _. reflexivity.
Qed.

Lemma history_records_exactly_the_changes_witness :
  (mkState (mkTaskList [mkTask 1 "a" true] 2) []
   = mkState (mkTaskList [mkTask 1 "a" true] 2) [])
  /\ undoStack (mkState (mkTaskList [mkTask 1 "a" true] 2)
                        [mkAction ACTION_COMPLETE 1 None false])
     = mkAction ACTION_COMPLETE 1 None false :: []
  /\ undoStack (mkState (mkTaskList [] 2)
                        [mkAction ACTION_REMOVE 1 (Some "a") false])
     = mkAction ACTION_REMOVE 1 (Some "a") false :: []
  /\ undoStack (mkState (mkTaskList [mkTask 1 "a" false] 2) [])
     = tl [mkAction ACTION_COMPLETE 1 None false].
Proof.
  split; [|split; [|split]].
  - (* completing a completed task *)
    apply (proj1 (proj2 (history_records_exactly_the_changes
                           (CmdComplete 1)
                           (mkState (mkTaskList [mkTask 1 "a" true] 2) [])
                           (mkState (mkTaskList [mkTask 1 "a" true] 2) [])
                           [MsgAlreadyCompleted 1] eq_refl))
                 [] (mkTask 1 "a" true) []).
    + repeat split. constructor.
    + reflexivity.
  - (* completing a pending task *)
    apply (proj2 (proj2 (history_records_exactly_the_changes
                           (CmdComplete 1)
                           (mkState (mkTaskList [mkTask 1 "a" false] 2) [])
                           (mkState (mkTaskList [mkTask 1 "a" true] 2)
                                    [mkAction ACTION_COMPLETE 1 None false])
                           [MsgMarkedCompleted 1] eq_refl))
                 [] (mkTask 1 "a" false) []).
    + repeat split. constructor.
    + reflexivity.
  - (* removing a task that is there *)
    apply (proj2 (history_records_exactly_the_changes
                    (CmdRemove 1)
                    (mkState (mkTaskList [mkTask 1 "a" false] 2) [])
                    (mkState (mkTaskList [] 2)
                             [mkAction ACTION_REMOVE 1 (Some "a") false])
                    [MsgRemoved 1 "a"] eq_refl)
                 [] (mkTask 1 "a" false) []).
    repeat split. constructor.
  - (* undoing *)
    apply (history_records_exactly_the_changes
             CmdUndo
             (mkState (mkTaskList [mkTask 1 "a" true] 2)
                      [mkAction ACTION_COMPLETE 1 None false])
             (mkState (mkTaskList [mkTask 1 "a" false] 2) [])
             [MsgUndoing; MsgUndoneComplete 1 false]).
    reflexivity.
Defined.

(** ** Undoing everything *)

Lemma unique_by_id (ts : list Task) (t t' : Task) :
  NoDup (map id ts) -> In t ts -> In t' ts -> id t = id t' -> t = t'.
Proof.
  induction ts as [|u ts IH]; simpl; [contradiction|].
  intros Hnd Ht Ht' E. inversion Hnd as [|? ? Hnot Hnd']; subst.
  destruct Ht as [->|Ht], Ht' as [->|Ht']; auto.
  - exfalso. apply Hnot. rewrite E. now apply in_map.
  - exfalso. apply Hnot. rewrite <- E. now apply in_map.
Qed.

Lemma first_with_perm (i : Z) (pre : list Task) (t : Task)
    (post ts ts' : list Task) :
  NoDup (map id ts) -> Permutation ts ts' ->
  first_with i pre t post ts ->
  exists pre' post', first_with i pre' t post' ts'.
Proof.
  intros Hnd Hp H. pose proof H as (Ets & Eid & _).
  assert (Hin : In t ts) by (rewrite Ets; apply in_elt).
  assert (Hin' : In t ts') by (eapply Permutation_in; eassumption).
  destruct (first_with_of_In i ts') as (pre' & t' & post' & H').
  { rewrite <- Eid. now apply in_map. }
  pose proof H' as (Ets' & Eid' & _).
  assert (In t' ts).
  { eapply Permutation_in; [apply Permutation_sym; eassumption|].
    rewrite Ets'. apply in_elt. }
  assert (t' = t) by (eapply unique_by_id; eauto; congruence).
  subst t'. eauto.
Qed.

Lemma absent_perm (i : Z) (ts ts' : list Task) :
  Permutation ts ts' -> absent i ts -> absent i ts'.
Proof. intros Hp A. eapply Permutation_Forall; eassumption. Qed.

(** The same undo against two lists that hold the same tasks in
    different orders gives two lists that hold the same tasks. *)
Lemma undo_tasks_perm (l1 l2 : TaskList) (a : Action) (h : ActionStack)
    l1' h1 o1 l2' h2 o2 :
  NoDup (map id (tasks l1)) ->
  Permutation (tasks l1) (tasks l2) ->
  undoLastAction l1 (a :: h) = Some (l1', h1, o1) ->
  undoLastAction l2 (a :: h) = Some (l2', h2, o2) ->
  Permutation (tasks l1') (tasks l2').
Proof.
  intros Hnd Hp E1 E2. unfold undoLastAction in E1, E2.
  cbn [popAction] in E1, E2. destruct (type a).
  - destruct (absent_or_first (task_id a) (tasks l1))
      as [A|(pre & t & post & H)].
    + rewrite (unlink_absent _ _ A) in E1.
      rewrite (unlink_absent _ _ (absent_perm _ _ _ Hp A)) in E2.
      injection E1 as <- _ _. injection E2 as <- _ _. assumption.
    + destruct (first_with_perm _ _ _ _ _ _ Hnd Hp H)
        as (pre' & post' & H').
      rewrite (unlink_first _ _ _ _ _ H) in E1.
      rewrite (unlink_first _ _ _ _ _ H') in E2.
      injection E1 as <- _ _. injection E2 as <- _ _. cbn [tasks].
      destruct H as (Ets & _), H' as (Ets' & _). rewrite Ets, Ets' in Hp.
      eapply Permutation_app_inv; eassumption.
  - destruct (absent_or_first (task_id a) (tasks l1))
      as [A|(pre & t & post & H)].
    + rewrite (setCompleted_absent _ _ _ A) in E1.
      rewrite (setCompleted_absent _ _ _ (absent_perm _ _ _ Hp A)) in E2.
      injection E1 as <- _ _. injection E2 as <- _ _. assumption.
    + destruct (first_with_perm _ _ _ _ _ _ Hnd Hp H)
        as (pre' & post' & H').
      rewrite (setCompleted_first _ _ _ _ _ _ H) in E1.
      rewrite (setCompleted_first _ _ _ _ _ _ H') in E2.
      injection E1 as <- _ _. injection E2 as <- _ _. cbn [tasks].
      destruct H as (Ets & _), H' as (Ets' & _). rewrite Ets, Ets' in Hp.
      apply Permutation_elt. eapply Permutation_app_inv; eassumption.
  - destruct (task_description a) as [d|]; [|discriminate E1].
    injection E1 as <- _ _. injection E2 as <- _ _. cbn [tasks].
    apply Permutation_app_tail. assumption.
Qed.

(** A command that recorded an action, undone right away: the list holds
    the tasks it held before the command. *)
Lemma step_then_undo_perm (c : Command) (st st' : State) (out : list Msg)
    (a : Action) :
  Reach st ->
  is_undo c = false ->
  step c st = Some (st', out) ->
  undoStack st' = a :: undoStack st ->
  exists l0 o,
    undoLastAction (myTasks st') (a :: undoStack st)
    = Some (l0, undoStack st, o)
    /\ Permutation (tasks l0) (tasks (myTasks st)).
Proof.
  intros ((Hlo & Hhi) & _ & Hrange & _) Hc Hstep Hpush.
  assert (Hself : forall (x : Action) (l : list Action), l <> x :: l).
  { intros x l E. apply (f_equal (@List.length Action)) in E.
    simpl in E. lia. }
  destruct c as [d| |i|i|]; try discriminate Hc; unfold step in Hstep.
  - unfold addTask in Hstep. injection Hstep as <- _.
    cbn [myTasks undoStack] in *. unfold pushAction in Hpush.
    injection Hpush as <-.
    unfold undoLastAction. cbn [popAction type task_id tasks next_id].
    set (n := next_id (myTasks st)).
    assert (Eid : Int.sub (Int.add n 1) 1 = n).
    { apply IntFacts.sub_1_add_1. unfold Int.in_range, Int.INT_MIN, n.
      lia. }
    rewrite Eid.
    rewrite (unlink_first n (tasks (myTasks st)) (createTask n d) []).
    + eexists _, _. split; [reflexivity|]. cbn [tasks].
      rewrite app_nil_r. apply Permutation_refl.
    + repeat split. apply absent_map_id.
      apply (ids_below_not_in _ _ Hrange).
  - injection Hstep as <- _. exfalso. eapply Hself; eassumption.
  - destruct (absent_or_first i (tasks (myTasks st)))
      as [A|(pre & t & post & H)].
    + rewrite (completeTask_absent _ _ A) in Hstep.
      injection Hstep as <- _. exfalso. eapply Hself; eassumption.
    + destruct (completed t) eqn:C.
      * rewrite (completeTask_done _ _ pre t post H C) in Hstep.
        injection Hstep as <- _. exfalso. eapply Hself; eassumption.
      * rewrite (completeTask_pending _ _ pre t post H C) in Hstep.
        rewrite (findTask_first _ _ _ _ _ H), C in Hstep.
        injection Hstep as <- _.
        cbn [myTasks undoStack] in *. unfold pushAction in Hpush.
        injection Hpush as <-.
        unfold undoLastAction.
        cbn [popAction type task_id tasks was_completed].
        rewrite (setCompleted_first i pre _ post _ false
                   (first_with_set i pre t post _ true H)).
        eexists _, _. split; [reflexivity|]. cbn [tasks id description].
        rewrite <- C, task_eta. destruct H as (-> & _).
        apply Permutation_refl.
  - unfold removeTask in Hstep.
    destruct (unlink_cases i (tasks (myTasks st)))
      as [[E A]|(pre & t & post & H & E)]; rewrite E in Hstep.
    + injection Hstep as <- _. exfalso. eapply Hself; eassumption.
    + injection Hstep as <- _.
      cbn [myTasks undoStack] in *. unfold pushAction in Hpush.
      injection Hpush as <-.
      unfold undoLastAction.
      cbn [popAction type task_id task_description was_completed].
      eexists _, _. split; [reflexivity|].
      cbn [tasks createTask id description]. rewrite task_eta.
      destruct H as (-> & _). rewrite <- app_assoc.
      apply Permutation_app_head. apply Permutation_sym.
      apply Permutation_cons_append.
Qed.

Lemma run_app (xs ys : list Command) (st : State) :
  run (xs ++ ys) st
  = match run xs st with
    | Some (st1, o1) =>
        match run ys st1 with
        | Some (st2, o2) => Some (st2, o1 ++ o2)
        | None => None
        end
    | None => None
    end.
Proof.
  revert st. induction xs as [|c xs IH]; intros st; cbn [run app].
  - destruct (run ys st) as [[st2 o2]|]; reflexivity.
  - destruct (step c st) as [[st1 o1]|]; [|reflexivity].
    rewrite IH. destruct (run xs st1) as [[st2 o2]|]; [|reflexivity].
    destruct (run ys st2) as [[st3 o3]|]; [|reflexivity].
    rewrite app_assoc. reflexivity.
Qed.

Lemma undo_everything (cs : list Command) :
  forall st : State,
    Reach st ->
    Forall (fun c => is_undo c = false) cs ->
    next_id (myTasks st) + Z.of_nat (List.length (filter is_add cs))
    <= Int.INT_MAX ->
    exists st1 o1 pushed st2 o2,
      run cs st = Some (st1, o1)
      /\ undoStack st1 = pushed ++ undoStack st
      /\ run (repeat CmdUndo (List.length pushed)) st1 = Some (st2, o2)
      /\ Reach st2
      /\ Permutation (tasks (myTasks st2)) (tasks (myTasks st))
      /\ undoStack st2 = undoStack st
      /\ next_id (myTasks st2) = next_id (myTasks st1).
Proof.
  induction cs as [|c cs IH]; intros st HR Hcs Hroom.
  - exists st, [], [], st, []. cbn [run List.length repeat app].
    split; [reflexivity|]. split; [reflexivity|]. split; [reflexivity|].
    split; [assumption|]. split; [apply Permutation_refl|].
    split; reflexivity.
  - inversion Hcs as [|? ? Hc Hcs']; subst. cbn [run filter] in *.
    destruct (step_Reach c st HR) as (sa & oa & Ea & HRa & Na & _).
    { intros Ha. rewrite Ha in Hroom. cbn [List.length] in Hroom. lia. }
    rewrite Ea.
    destruct (IH sa HRa Hcs')
      as (st1 & o1 & pushed & sb & ob & E1 & Est & Eb & HRb & Pb & Sb & Nb).
    { rewrite Na. destruct (is_add c); cbn [List.length] in *; lia. }
    rewrite E1.
    destruct (step_records_changes c st sa oa Hc Ea)
      as [->|(_ & a & Epush)].
    + (* nothing was recorded for [c] *)
      exists st1, (oa ++ o1), pushed, sb, ob.
      split; [reflexivity|]. do 5 (split; [assumption|]). assumption.
    + (* [c] recorded [a]: it is undone last *)
      destruct (step_then_undo_perm c st sa oa a HR Hc Ea Epush)
        as (l0 & o0 & E0 & P0).
      destruct (step_Reach CmdUndo sb HRb)
        as (st2 & o2 & E2 & HR2 & N2 & _); [discriminate|].
      cbn [is_add] in N2. rewrite Z.add_0_r in N2.
      pose proof E2 as E2'. unfold step in E2'.
      rewrite Sb, Epush in E2'.
      destruct (undoLastAction (myTasks sb) (a :: undoStack st))
        as [[[l2 h2] ou]|] eqn:Eu; [|discriminate E2'].
      injection E2' as <- <-.
      assert (Hh2 : h2 = undoStack st).
      { unfold undoLastAction in Eu. cbn [popAction] in Eu.
        destruct (type a).
        - destruct (unlink _ _) as [[? ?]|]; congruence.
        - destruct (setCompleted _ _ _); congruence.
        - destruct (task_description a); congruence. }
      subst h2.
      exists st1, (oa ++ o1), (pushed ++ [a]),
             (mkState l2 (undoStack st)), (ob ++ ou).
      split; [reflexivity|].
      split; [rewrite Est, Epush, <- app_assoc; reflexivity|].
      split.
      { rewrite length_app, repeat_app, run_app, Eb.
        cbn [List.length repeat run]. rewrite E2.
        rewrite app_nil_r. reflexivity. }
      split; [assumption|]. cbn [myTasks undoStack] in *.
      split; [|split; [reflexivity|congruence]].
      apply Permutation_trans with (tasks l0); [|assumption].
      apply Permutation_sym.
      destruct HRa as (_ & Hnd & _).
      eapply (undo_tasks_perm (myTasks sa) (myTasks sb));
        [exact Hnd|apply Permutation_sym; exact Pb|exact E0|exact Eu].
Qed.

(** X10. From a reachable state, after any commands other than undo, as
    many undos as entries were recorded bring back the tasks the list
    held at the start, each with its id, description and flag, though
    possibly in another order; the history is the one of the start, and
    the counter is not taken back. *)
Theorem undoing_everything_restores_the_tasks
    (cs : list Command) (st : State)
    (HR : Reach st)
    (Hcs : Forall (fun c => is_undo c = false) cs)
    (Hfit : next_id (myTasks st)
            + Z.of_nat (List.length (filter is_add cs)) <= Int.INT_MAX) :
  exists st1 o1 pushed st2 o2,
    run cs st = Some (st1, o1)
    /\ undoStack st1 = pushed ++ undoStack st
    /\ run (repeat CmdUndo (List.length pushed)) st1 = Some (st2, o2)
    /\ Permutation (tasks (myTasks st2)) (tasks (myTasks st))
    /\ undoStack st2 = undoStack st
    /\ next_id (myTasks st2)
       = next_id (myTasks st) + Z.of_nat (List.length (filter is_add cs)).
Proof.
  destruct (undo_everything cs st HR Hcs Hfit)
    as (st1 & o1 & pushed & st2 & o2 & E1 & Est & E2 & _ & P & S2 & N).
  destruct (run_Reach cs st HR Hfit) as (st1' & o1' & E1' & _ & N1 & _).
  rewrite E1 in E1'. injection E1' as <- <-.
  exists st1, o1, pushed, st2, o2. repeat split; try assumption.
  congruence.
Qed.

Lemma undoing_everything_restores_the_tasks_witness :
  exists st1 o1 pushed st2 o2,
    run [CmdAdd "c"; CmdComplete 1; CmdRemove 1; CmdRemove 9]
        (mkState (mkTaskList [mkTask 1 "a" false; mkTask 2 "b" true] 3) [])
    = Some (st1, o1)
    /\ undoStack st1 = pushed ++ []
    /\ run (repeat CmdUndo (List.length pushed)) st1 = Some (st2, o2)
    /\ Permutation (tasks (myTasks st2))
                   [mkTask 1 "a" false; mkTask 2 "b" true]
    /\ undoStack st2 = []
    /\ next_id (myTasks st2) = 4.
Proof.
  apply (undoing_everything_restores_the_tasks
           [CmdAdd "c"; CmdComplete 1; CmdRemove 1; CmdRemove 9]
           (mkState (mkTaskList [mkTask 1 "a" false; mkTask 2 "b" true] 3)
                    [])).
  - unfold Reach, Int.INT_MAX. cbn [myTasks undoStack tasks next_id map id].
    split; [lia|]. split.
    { repeat constructor; simpl; intuition discriminate. }
    split; [|exact I].
    repeat constructor; cbn; lia.
  - repeat constructor.
  - vm_compute. discriminate.
Defined.

(** ** The loop of [main] *)

Lemma core_map_OutCore (out : list Msg) : core (map OutCore out) = out.
Proof. induction out as [|m out IH]; simpl; congruence. Qed.

Lemma core_app (o1 o2 : list Out) : core (o1 ++ o2) = core o1 ++ core o2.
Proof.
  induction o1 as [|x o1 IH]; simpl; [reflexivity|].
  destruct x; simpl; rewrite ?IH; reflexivity.
Qed.

(** The numbers a menu choice is compared with, and all the others. *)
Ltac choice_cases c :=
  destruct c as [|[[[?|?|]|[?|?|]|]|[[?|?|]|[?|?|]|]|]|?].

Lemma core_step_command (pre : list Out) (cmd : Command) (st : State) :
  core pre = [] ->
  match step cmd st with
  | Some (st', out) =>
      exists out',
        core_step pre cmd st = Some (Passed st' out') /\ core out' = out
  | None => core_step pre cmd st = None
  end.
Proof.
  intros Hpre. unfold core_step.
  destruct (step cmd st) as [[st' out]|]; [|reflexivity].
  eexists. split; [reflexivity|].
  rewrite core_app, Hpre, core_map_OutCore. reflexivity.
Qed.

(** One pass through the [switch] with a choice other than 0, the flush
    after the id meeting its newline: it does what the command read
    does, and nothing when no command was read. *)
Lemma switch_choice_command (c : Z) (r : Read) (st : State) :
  read_choice r = Some c -> c <> 0 -> number_flushed r = true ->
  match command_of r with
  | Some cmd =>
      match step cmd st with
      | Some (st', out) =>
          exists out',
            switch_choice c r st = Some (Passed st' out')
            /\ core out' = out
      | None => switch_choice c r st = None
      end
  | None =>
      exists out',
        switch_choice c r st = Some (Passed st out') /\ core out' = []
  end.
Proof.
  intros Hr Hc Hf. unfold command_of. rewrite Hr.
  choice_cases c; try (contradiction Hc; reflexivity);
    cbn [switch_choice option_map]; rewrite ?Hf;
    try (eexists; split; reflexivity).
  - (* 5 *) apply core_step_command. reflexivity.
  - (* 3 *)
    destruct (read_number r) as [i|]; cbn [option_map];
      [|eexists; split; reflexivity].
    apply core_step_command. reflexivity.
  - (* 4 *)
    destruct (read_number r) as [i|]; cbn [option_map];
      [|eexists; split; reflexivity].
    apply core_step_command. reflexivity.
  - (* 2 *) apply core_step_command. reflexivity.
  - (* 1 *)
    destruct (read_line r) as [b|]; cbn [option_map];
      [|eexists; split; reflexivity].
    apply core_step_command. reflexivity.
Qed.

(** X11. Once a choice has been read, as long as 0 is not chosen and
    every line read ends in a newline for the flush loops to meet, the
    loop of [main] does to the list and the history exactly what the
    commands it read do, one after the other, prints their lines in that
    order among its own, and is then back at its prompt: unreadable
    choices, unreadable ids or descriptions and unknown choices change
    nothing, and the description of an add is the line read, cut at its
    newline. *)
Theorem main_loop_runs_the_commands_read
    (reads : list Read) (c0 : Z) (st : State)
    (Hc0 : c0 <> 0)
    (Hstay : Forall (fun r => read_choice r <> Some 0 /\ flushed r) reads) :
  match run (commands_of reads) st with
  | Some (st', out) =>
      exists out',
        main_loop reads (Some c0) st = Some (AtPrompt st' out')
        /\ core out' = out
  | None => main_loop reads (Some c0) st = None
  end.
Proof.
  revert c0 st Hc0.
  induction Hstay as [|r reads (Hr & Hcf & Hnf) _ IH]; intros c0 st Hc0.
  - cbn. eexists. split; reflexivity.
  - cbn [main_loop commands_of]. rewrite Hcf.
    destruct (read_choice r) as [c|] eqn:Er.
    + assert (Hc : c <> 0) by congruence.
      pose proof (switch_choice_command c r st Er Hc Hnf) as Hsw.
      apply Z.eqb_neq in Hc.
      destruct (command_of r) as [cmd|].
      * cbn [run]. destruct (step cmd st) as [[st1 o1]|].
        -- destruct Hsw as (o1' & -> & Eo1). rewrite Hc.
           apply Z.eqb_neq in Hc. specialize (IH c st1 Hc).
           destruct (run (commands_of reads) st1) as [[st2 o2]|].
           ++ destruct IH as (o2' & -> & Eo2).
              eexists. split; [reflexivity|]. cbn [core app].
              rewrite core_app. congruence.
           ++ rewrite IH. reflexivity.
        -- rewrite Hsw. reflexivity.
      * destruct Hsw as (o1' & -> & Eo1). rewrite Hc.
        apply Z.eqb_neq in Hc. specialize (IH c st Hc).
        destruct (run (commands_of reads) st) as [[st2 o2]|].
        -- destruct IH as (o2' & -> & Eo2).
           eexists. split; [reflexivity|]. cbn [core app].
           rewrite core_app, Eo1. exact Eo2.
        -- rewrite IH. reflexivity.
    + assert (Ecmd : command_of r = None).
      { unfold command_of. rewrite Er. reflexivity. }
      rewrite Ecmd. pose proof Hc0 as Hc0'. apply Z.eqb_neq in Hc0'.
      rewrite Hc0'. specialize (IH c0 st Hc0).
      destruct (run (commands_of reads) st) as [[st2 o2]|].
      * destruct IH as (o2' & -> & Eo2).
        eexists. split; [reflexivity|]. exact Eo2.
      * rewrite IH. reflexivity.
Qed.

Lemma main_loop_runs_the_commands_read_witness :
  exists out',
    main_loop [mkRead (Some 1) true (Some "buy milk
") None true;
               mkRead None true None None true;
               mkRead (Some 3) true None (Some 1) true;
               mkRead (Some 7) true None None true;
               mkRead (Some 4) true None None true]
              (Some 2) initState
    = Some (AtPrompt
              (mkState (mkTaskList [mkTask 1 "buy milk" true] 2)
                       [mkAction ACTION_COMPLETE 1 None false;
                        mkAction ACTION_ADD 1 (Some "buy milk") false])
              out')
    /\ core out' = [MsgAdded "buy milk" 1; MsgMarkedCompleted 1].
Proof.
  apply (main_loop_runs_the_commands_read
           [mkRead (Some 1) true (Some "buy milk
") None true;
            mkRead None true None None true;
            mkRead (Some 3) true None (Some 1) true;
            mkRead (Some 7) true None None true;
            mkRead (Some 4) true None None true]
           2 initState).
  - discriminate.
  - repeat constructor; discriminate.
Defined.

Lemma after_AtPrompt (pre : list Out) (o : option Outcome)
    (st : State) (out : list Out) :
  after pre o = Some (AtPrompt st out) ->
  exists out0, o = Some (AtPrompt st out0) /\ out = pre ++ out0.
Proof.
  destruct o as [[s x|s x|s x]|]; cbn [after]; intros E;
    try discriminate E.
  injection E as <- <-. eauto.
Qed.

Lemma main_loop_exit (pre : list Read) (r0 : Read) (rest : list Read) :
  read_choice r0 = Some 0 ->
  forall (choice : option Z) (st0 st : State) (out : list Out),
    main_loop pre choice st0 = Some (AtPrompt st out) ->
    main_loop (pre ++ r0 :: rest) choice st0
    = Some (if choice_flushed r0 then LoopLeft st (out ++ [OutBye])
            else Spinning st out).
Proof.
  intros H0. induction pre as [|r pre IH]; intros choice st0 st out Hpre.
  - cbn in Hpre. injection Hpre as <- <-.
    cbn [app main_loop]. rewrite H0.
    destruct (choice_flushed r0); reflexivity.
  - cbn [app main_loop] in *.
    destruct (read_choice r) as [c|].
    + destruct (choice_flushed r); [|discriminate Hpre].
      destruct (switch_choice c r st0) as [[st1 o1|o1]|];
        try discriminate Hpre.
      destruct (c =? 0); [discriminate Hpre|].
      apply after_AtPrompt in Hpre. destruct Hpre as (out0 & E & ->).
      rewrite (IH _ _ _ _ E).
      destruct (choice_flushed r0); cbn [after];
        rewrite ?app_assoc; reflexivity.
    + destruct (choice_flushed r); [|discriminate Hpre].
      destruct choice as [c|]; [|discriminate Hpre].
      destruct (c =? 0); [discriminate Hpre|].
      apply after_AtPrompt in Hpre. destruct Hpre as (out0 & E & ->).
      rewrite (IH _ _ _ _ E).
      destruct (choice_flushed r0); cbn [after];
        rewrite ?app_assoc; reflexivity.
Qed.

(** X12. When the choice 0 is read at a prompt and the line holding it
    ends in a newline, [main] prints its farewell, frees the list and the
    history and returns 0: the list is empty, the counter is back to 1
    and the history is empty, whatever the state was, and nothing that
    follows in the input is read.  When the input ends right after that
    0, the program spins in the flush loop instead: nothing is printed,
    nothing is freed, and [main] does not return. *)
Theorem main_exits_with_everything_freed
    (pre : list Read) (r0 : Read) (rest : list Read)
    (st : State) (out : list Out)
    (Hpre : main_loop pre None initState = Some (AtPrompt st out))
    (H0 : read_choice r0 = Some 0) :
  main (pre ++ r0 :: rest)
  = Some (if choice_flushed r0 then
            Returned 0 initState
                     (out ++ [OutBye; OutListFreed; OutStackFreed])
          else Forever st out).
Proof.
  unfold main. rewrite (main_loop_exit pre r0 rest H0 _ _ _ _ Hpre).
  destruct (choice_flushed r0); [|reflexivity].
  cbn [destroyTaskList destroyActionStack].
  rewrite <- app_assoc. reflexivity.
Qed.

Lemma main_exits_with_everything_freed_witness :
  main [mkRead (Some 1) true (Some "a") None true;
        mkRead (Some 0) true None None true;
        mkRead (Some 1) true (Some "b") None true]
  = Some (Returned 0 initState
            [OutMenu; OutPromptDescription; OutCore (MsgAdded "a" 1);
             OutMenu; OutBye; OutListFreed; OutStackFreed])
  /\ main [mkRead (Some 1) true (Some "a") None true;
           mkRead (Some 0) false None None true]
     = Some (Forever (mkState (mkTaskList [mkTask 1 "a" false] 2)
                              [mkAction ACTION_ADD 1 (Some "a") false])
                     [OutMenu; OutPromptDescription;
                      OutCore (MsgAdded "a" 1); OutMenu]).
Proof.
  split.
  - apply (main_exits_with_everything_freed
             [mkRead (Some 1) true (Some "a") None true]
             (mkRead (Some 0) true None None true)
             [mkRead (Some 1) true (Some "b") None true]
             (mkState (mkTaskList [mkTask 1 "a" false] 2)
                      [mkAction ACTION_ADD 1 (Some "a") false])
             [OutMenu; OutPromptDescription; OutCore (MsgAdded "a" 1);
              OutMenu]).
    + reflexivity.
    + reflexivity.
  - apply (main_exits_with_everything_freed
             [mkRead (Some 1) true (Some "a") None true]
             (mkRead (Some 0) false None None true)
             []
             (mkState (mkTaskList [mkTask 1 "a" false] 2)
                      [mkAction ACTION_ADD 1 (Some "a") false])
             [OutMenu; OutPromptDescription; OutCore (MsgAdded "a" 1);
              OutMenu]).
    + reflexivity.
    + reflexivity.
Defined.

Lemma core_step_recorded (pre : list Out) (c : Command) (st : State) :
  Forall recorded (undoStack st) ->
  exists st' out,
    core_step pre c st = Some (Passed st' out)
    /\ Forall recorded (undoStack st').
Proof.
  intros H. unfold core_step.
  destruct (step_recorded c st H) as (st' & out & -> & H'). eauto.
Qed.

Lemma switch_choice_recorded (c : Z) (r : Read) (st : State) :
  Forall recorded (undoStack st) ->
  (exists out, switch_choice c r st = Some (Hung out))
  \/ exists st' out,
       switch_choice c r st = Some (Passed st' out)
       /\ Forall recorded (undoStack st').
Proof.
  intros H.
  choice_cases c; cbn [switch_choice]; try (right; eexists _, _; split;
                                            [reflexivity|assumption]).
  - right. apply core_step_recorded; assumption.
  - destruct (read_number r) as [i|], (number_flushed r); eauto.
    right. apply core_step_recorded; assumption.
  - destruct (read_number r) as [i|], (number_flushed r); eauto.
    right. apply core_step_recorded; assumption.
  - destruct (read_line r) as [b|]; [|eauto].
    right. apply core_step_recorded; assumption.
Qed.

Lemma after_defined (pre : list Out) (o : option Outcome) :
  (exists x, o = Some x) -> exists y, after pre o = Some y.
Proof. intros [[s x|s x|s x] ->]; cbn [after]; eauto. Qed.

Lemma main_loop_defined (reads : list Read) :
  forall (c : Z) (st : State),
    Forall recorded (undoStack st) ->
    exists o, main_loop reads (Some c) st = Some o.
Proof.
  induction reads as [|r reads IH]; intros c st H; cbn [main_loop].
  - eauto.
  - destruct (read_choice r) as [c'|], (choice_flushed r); eauto.
    + destruct (switch_choice_recorded c' r st H)
        as [(o1 & ->)|(st1 & o1 & -> & H1)]; [eauto|].
      destruct (c' =? 0); [eauto|].
      apply after_defined. apply IH. assumption.
    + destruct (c =? 0); [eauto|].
      apply after_defined. apply IH. assumption.
Qed.

(** X13. [main] has a defined result on every input on which the first
    menu choice is readable, or on which the program gets stuck flushing
    the first line, however long the input and whatever follows: no
    later iteration reads a variable that was never written or undoes a
    removal without its description.  Before anything is read it has
    printed the menu and waits in the initial state; and when the input
    ends right after the first choice, it has printed the menu, and the
    complaint if the choice was unreadable, and spins without running
    any command. *)
Theorem main_is_defined_after_a_first_choice
    (r : Read) (reads : list Read)
    (Hfirst : read_choice r <> None \/ choice_flushed r = false) :
  (exists e, main (r :: reads) = Some e)
  /\ (choice_flushed r = false ->
      main (r :: reads)
      = Some (Forever initState
                (match read_choice r with
                 | Some _ => [OutMenu]
                 | None => [OutMenu; OutInvalidNumber]
                 end)))
  /\ main [] = Some (Waiting initState [OutMenu]).
Proof.
  split; [|split; [|reflexivity]].
  - assert (Hloop : exists o, main_loop (r :: reads) None initState = Some o).
    { cbn [main_loop].
      destruct (read_choice r) as [c|], (choice_flushed r); eauto.
      - destruct (switch_choice_recorded c r initState)
          as [(o1 & ->)|(st1 & o1 & -> & H1)]; [constructor|eauto|].
        destruct (c =? 0); [eauto|].
        apply after_defined. apply main_loop_defined. assumption.
      - destruct Hfirst as [Hf|Hf]; [contradiction Hf; reflexivity|].
        discriminate Hf. }
    unfold main. destruct Hloop as [[s x|s x|s x] ->];
      cbn [destroyTaskList destroyActionStack]; eauto.
  - intros Hf. unfold main. cbn [main_loop]. rewrite Hf.
    destruct (read_choice r); reflexivity.
Qed.

Lemma main_is_defined_after_a_first_choice_witness :
  (exists e,
      main [mkRead (Some 5) true None None true;
            mkRead None true None None true]
      = Some e)
  /\ main [mkRead (Some 2) false None None true]
     = Some (Forever initState [OutMenu]).
Proof.
  split.
  - apply (main_is_defined_after_a_first_choice
             (mkRead (Some 5) true None None true)
             [mkRead None true None None true]).
    left. discriminate.
  - apply (proj1 (proj2 (main_is_defined_after_a_first_choice
                           (mkRead (Some 2) false None None true) []
                           (or_intror eq_refl)))).
    reflexivity.
Defined.
